(** * The log query engine of [enfugue/api/controller/system.py]

    A shallow embedding of [LOG_REGEX], [parse_logs] and the log part of
    [read_logs], with the pieces of the Python runtime they rest on: the
    backtracking matcher of [re], [datetime.datetime.strptime] for the one
    format the controller uses, comparison of [datetime] values, the stable
    [list.sort] and [str.lower].

    Strings are sequences of characters with code points below 256 (the
    [ascii] type).  On these characters [\d] is exactly [0-9], [\s] is the
    set listed in [is_space], and [str.lower] is [lower_char].  On a
    [str] Python's [\d] also takes the decimal digits of other scripts,
    which lie above 255: lines that hold such digits are outside this
    alphabet, and what is said here of digits is said of [0-9]. *)

From Stdlib Require Import ZArith List String Ascii Bool Lia Permutation Sorted.
Import ListNotations.
Open Scope string_scope.
Open Scope Z_scope.

(* ================================================================== *)
(** ** Python values, exceptions and results *)

Module Py.

(** The exceptions that the modelled code raises or lets through. *)
Inductive exn : Type :=
| ValueError
| TypeError
| ConfigurationError
| BadRequestError
| OSError.

(** The outcome of evaluating Python code: a value or a raised exception. *)
Inductive result (A : Type) : Type :=
| Ok (a : A)
| Raise (e : exn).
Arguments Ok {A} a.
Arguments Raise {A} e.

Definition bind {A B : Type} (r : result A) (f : A -> result B) : result B :=
  match r with
  | Ok a => f a
  | Raise e => Raise e
  end.

(** [datetime.date] and (naive) [datetime.datetime] objects. *)
Record date : Type := mkDate {
  d_year : Z;
  d_month : Z;
  d_day : Z
}.

Record datetime : Type := mkDateTime {
  year : Z;
  month : Z;
  day : Z;
  hour : Z;
  minute : Z;
  second : Z;
  microsecond : Z
}.

(** The dynamically typed values that occur in the log code. *)
Inductive pyval : Type :=
| PyNone
| PyStr (s : string)
| PyInt (z : Z)
| PyDate (d : date)
| PyDateTime (dt : datetime).

End Py.
Export Py.

Notation "x <- r ;; k" := (bind r (fun x => k))
  (at level 61, r at next level, right associativity).

(* ================================================================== *)
(** ** Characters and strings *)

Definition code (c : ascii) : nat := nat_of_ascii c.

Definition in_range (lo hi c : ascii) : bool :=
  (Nat.leb (code lo) (code c) && Nat.leb (code c) (code hi))%bool.

(** [\d] and [[0-9]]. *)
Definition is_digit (c : ascii) : bool := in_range "0" "9" c.

(** [\s] of a [str] pattern, on code points below 256. *)
Definition is_space (c : ascii) : bool :=
  let n := code c in
  (Nat.eqb n 32 || (Nat.leb 9 n && Nat.leb n 13)
   || (Nat.leb 28 n && Nat.leb n 31) || Nat.eqb n 133 || Nat.eqb n 160)%bool.

Definition newline : ascii := ascii_of_nat 10.

(** [str.lower] on one character: [A-Z] and the upper-case letters of the
    Latin-1 block move 32 code points up. *)
Definition lower_char (c : ascii) : ascii :=
  let n := code c in
  if ((Nat.leb 65 n && Nat.leb n 90)
      || (Nat.leb 192 n && Nat.leb n 214)
      || (Nat.leb 216 n && Nat.leb n 222))%bool
  then ascii_of_nat (n + 32) else c.

Fixpoint lower (s : string) : string :=
  match s with
  | EmptyString => EmptyString
  | String c s' => String (lower_char c) (lower s')
  end.

(** [needle in hay] for strings. *)
Fixpoint contains (needle hay : string) : bool :=
  if prefix needle hay then true
  else match hay with
       | EmptyString => false
       | String _ hay' => contains needle hay'
       end.

(** [int(s)] for a string of decimal digits. *)
Definition digit_value (c : ascii) : Z := Z.of_nat (code c - 48).

Fixpoint int_acc (acc : Z) (s : string) : Z :=
  match s with
  | EmptyString => acc
  | String c s' => int_acc (10 * acc + digit_value c) s'
  end.

Definition int (s : string) : Z := int_acc 0 s.

(** ["0" * n] *)
Fixpoint zeros (n : nat) : string :=
  match n with
  | O => EmptyString
  | S n' => String "0" (zeros n')
  end.

(* ================================================================== *)
(** ** The matcher of [re]

    A backtracking matcher in continuation-passing style.  Alternatives are
    tried from left to right and repetitions are greedy, as in [re]; the
    continuation stands for the rest of the pattern, so that a failure
    further right makes an earlier choice point try its next option.  The
    continuation receives the text matched, whether the position is still
    the beginning of the string, the rest of the input and the groups
    captured so far. *)

Module Regex.

Definition groups : Type := list (string * string).

Inductive regex : Type :=
| Bol                                   (* ^ *)
| Eol                                   (* $ *)
| Lit (c : ascii)                       (* one literal character *)
| Cls (p : ascii -> bool)               (* a character class *)
| Seq (r1 r2 : regex)                   (* r1 r2 *)
| Alt (r1 r2 : regex)                   (* r1|r2 *)
| Rep (lo : nat) (hi : option nat) (p : ascii -> bool)
                                        (* class{lo,hi}, greedy *)
| Group (name : string) (r : regex).    (* (?P<name>r) *)

Definition Star (p : ascii -> bool) : regex := Rep 0 None p.
Definition Plus (p : ascii -> bool) : regex := Rep 1 None p.
Definition Exactly (n : nat) (p : ascii -> bool) : regex := Rep n (Some n) p.

(** A pattern written as the list of its parts, in order; the empty list
    is the empty pattern. *)
Fixpoint Cat (rs : list regex) : regex :=
  match rs with
  | [] => Rep 0 (Some 0%nat) (fun _ => false)
  | [r] => r
  | r :: rs' => Seq r (Cat rs')
  end.

Section Matcher.
Context {A : Type}.

(** Greedy repetition of a class: take one more character while the
    class and the upper bound allow, and fall back to stopping here
    (allowed once the lower bound is reached) when the rest fails. *)
Fixpoint greedy (p : ascii -> bool) (lo : nat) (hi : option nat)
    (s : string) (k : string -> string -> option A) : option A :=
  let stop := match lo with O => k EmptyString s | S _ => None end in
  match hi with
  | Some O => stop
  | _ =>
    match s with
    | String c s' =>
      if p c then
        match greedy p (Nat.pred lo) (option_map Nat.pred hi) s'
                (fun m rest => k (String c m) rest) with
        | Some x => Some x
        | None => stop
        end
      else stop
    | EmptyString => stop
    end
  end.

Fixpoint rmatch (r : regex) (bos : bool) (s : string) (g : groups)
    (k : string -> bool -> string -> groups -> option A) : option A :=
  match r with
  | Bol => if bos then k EmptyString bos s g else None
  | Eol =>
    (* the end of the string, or just before a newline that ends it *)
    match s with
    | EmptyString => k EmptyString bos s g
    | String c EmptyString =>
      if Ascii.eqb c newline then k EmptyString bos s g else None
    | _ => None
    end
  | Lit c =>
    match s with
    | String c' s' =>
      if Ascii.eqb c c' then k (String c' EmptyString) false s' g else None
    | EmptyString => None
    end
  | Cls p =>
    match s with
    | String c' s' =>
      if p c' then k (String c' EmptyString) false s' g else None
    | EmptyString => None
    end
  | Seq r1 r2 =>
    rmatch r1 bos s g (fun m1 b1 s1 g1 =>
      rmatch r2 b1 s1 g1 (fun m2 b2 s2 g2 => k (m1 ++ m2) b2 s2 g2))
  | Alt r1 r2 =>
    match rmatch r1 bos s g k with
    | Some x => Some x
    | None => rmatch r2 bos s g k
    end
  | Rep lo hi p =>
    greedy p lo hi s (fun m rest =>
      k m (match m with EmptyString => bos | _ => false end) rest g)
  | Group name r =>
    rmatch r bos s g (fun m b s' g' => k m b s' ((name, m) :: g'))
  end.
End Matcher.

(** [m.groupdict()[name]]; the binding made last is the one in force. *)
Fixpoint group (name : string) (g : groups) : option string :=
  match g with
  | [] => None
  | (n, v) :: g' => if String.eqb n name then Some v else group name g'
  end.

(** [pattern.match(s)]: a match that starts at the beginning of [s] and
    may end anywhere.  The result is the groups and the unmatched rest of
    [s] (what lies after [m.end()]). *)
Definition re_match (r : regex) (s : string) : option (groups * string) :=
  rmatch r true s [] (fun _ _ rest g => Some (g, rest)).

End Regex.
Import Regex.

(* ================================================================== *)
(** ** [datetime]: construction, comparison and [strptime] *)

Module DateTime.

(** [_is_leap] and [_days_in_month] of [datetime]. *)
Definition is_leap (y : Z) : bool :=
  ((y mod 4 =? 0) && (negb (y mod 100 =? 0) || (y mod 400 =? 0)))%bool.

Definition days_in_month (y m : Z) : Z :=
  if m =? 2 then (if is_leap y then 29 else 28)
  else if ((m =? 4) || (m =? 6) || (m =? 9) || (m =? 11))%bool then 30
  else 31.

Definition between (lo x hi : Z) : bool := ((lo <=? x) && (x <=? hi))%bool.

(** The range checks of the [datetime] constructor. *)
Definition check_date_fields (y m d : Z) : bool :=
  (between 1 y 9999 && between 1 m 12 && between 1 d (days_in_month y m))%bool.

Definition check_time_fields (h mi s us : Z) : bool :=
  (between 0 h 23 && between 0 mi 59 && between 0 s 59
   && between 0 us 999999)%bool.

(** [datetime.datetime(y, m, d, h, mi, s, us)]: [ValueError] when a field
    is out of range. *)
Definition datetime_new (y m d h mi s us : Z) : result datetime :=
  if (check_date_fields y m d && check_time_fields h mi s us)%bool
  then Ok (mkDateTime y m d h mi s us)
  else Raise ValueError.

(** Tuples of integers compare lexicographically. *)
Fixpoint tuple_ltb (a b : list Z) : bool :=
  match a, b with
  | [], [] => false
  | [], _ :: _ => true
  | _ :: _, [] => false
  | x :: a', y :: b' =>
    if x <? y then true else if y <? x then false else tuple_ltb a' b'
  end.

Definition fields (t : datetime) : list Z :=
  [year t; month t; day t; hour t; minute t; second t; microsecond t].

(** [a < b] and [a == b] for two naive [datetime] objects: [_cmp] compares
    the field tuples. *)
Definition dt_ltb (a b : datetime) : bool := tuple_ltb (fields a) (fields b).

Definition dt_eqb (a b : datetime) : bool :=
  ((year a =? year b) && (month a =? month b) && (day a =? day b)
   && (hour a =? hour b) && (minute a =? minute b)
   && (second a =? second b) && (microsecond a =? microsecond b))%bool.

(** [t < v] for a [datetime] on the left.  Only another [datetime] can be
    ordered against it: for a [date] that is not a [datetime],
    [datetime.__lt__] raises [TypeError], and for every other value both
    sides answer [NotImplemented], which is a [TypeError] as well. *)
Definition lt_datetime (t : datetime) (v : pyval) : result bool :=
  match v with
  | PyDateTime u => Ok (dt_ltb t u)
  | _ => Raise TypeError
  end.

Definition one_to_nine (c : ascii) : bool := in_range "1" "9" c.

(** The directives of [_strptime.TimeRE]. *)
Definition re_Y : regex :=
  Group "Y" (Cat [Cls is_digit; Cls is_digit; Cls is_digit; Cls is_digit]).
Definition re_m : regex :=
  Group "m" (Alt (Cat [Lit "1"; Cls (in_range "0" "2")])
            (Alt (Cat [Lit "0"; Cls one_to_nine])
                 (Cls one_to_nine))).
Definition re_d : regex :=
  Group "d" (Alt (Cat [Lit "3"; Cls (in_range "0" "1")])
            (Alt (Cat [Cls (in_range "1" "2"); Cls is_digit])
            (Alt (Cat [Lit "0"; Cls one_to_nine])
            (Alt (Cls one_to_nine)
                 (Cat [Lit " "; Cls one_to_nine]))))).
Definition re_H : regex :=
  Group "H" (Alt (Cat [Lit "2"; Cls (in_range "0" "3")])
            (Alt (Cat [Cls (in_range "0" "1"); Cls is_digit])
                 (Cls is_digit))).
Definition re_M : regex :=
  Group "M" (Alt (Cat [Cls (in_range "0" "5"); Cls is_digit])
                 (Cls is_digit)).
Definition re_S : regex :=
  Group "S" (Alt (Cat [Lit "6"; Cls (in_range "0" "1")])
            (Alt (Cat [Cls (in_range "0" "5"); Cls is_digit])
                 (Cls is_digit))).
Definition re_f : regex := Group "f" (Rep 1 (Some 6%nat) is_digit).

(** The pattern that [_strptime] builds for the format
    ["%Y-%m-%d %H:%M:%S,%f"]: each directive becomes its group and the
    blank becomes [\s+]. *)
Definition FORMAT_REGEX : regex :=
  Cat [re_Y; Lit "-"; re_m; Lit "-"; re_d; Plus is_space;
       re_H; Lit ":"; re_M; Lit ":"; re_S; Lit ","; re_f].

Definition found_dict (found : groups) (name : string) : string :=
  match group name found with
  | Some v => v
  | None => EmptyString
  end.

(** [datetime.datetime.strptime(data_string, "%Y-%m-%d %H:%M:%S,%f")].
    [ValueError] when the pattern does not match, when unconverted data
    remains after the match, and when the fields are no date and time. *)
Definition strptime (data_string : string) : result datetime :=
  match re_match FORMAT_REGEX data_string with
  | None => Raise ValueError
  | Some (found, rest) =>
    if negb (String.eqb rest EmptyString) then Raise ValueError
    else
      let s := found_dict found "f" in
      let fraction := int (s ++ zeros (6 - String.length s)) in
      datetime_new (int (found_dict found "Y")) (int (found_dict found "m"))
                   (int (found_dict found "d")) (int (found_dict found "H"))
                   (int (found_dict found "M")) (int (found_dict found "S"))
                   fraction
  end.

End DateTime.
Import DateTime.

(* ================================================================== *)
(** ** [list.sort(key=...)] *)

Section Sort.
Context {A K : Type}.
Variable ltb : K -> K -> bool.
Variable eqb : K -> K -> bool.
Variable key : A -> K.

(** [list.sort] is stable and compares keys with [<] only.  Every stable
    sort returns the same list; this one inserts each element in front of
    the first element whose key is not smaller. *)
Fixpoint insert_by (x : A) (l : list A) : list A :=
  match l with
  | [] => [x]
  | y :: l' =>
    if ltb (key y) (key x) then y :: insert_by x l' else x :: y :: l'
  end.

Fixpoint sort_by (l : list A) : list A :=
  match l with
  | [] => []
  | x :: l' => insert_by x (sort_by l')
  end.

(** [a] may stand before [b] in an ascending, resp. descending, list. *)
Definition asc (a b : A) : Prop := ltb (key b) (key a) = false.
Definition desc (a b : A) : Prop := ltb (key a) (key b) = false.

(** The elements of [l] whose key is [t], in the order of [l]. *)
Definition with_key (t : K) (l : list A) : list A :=
  filter (fun a => eqb (key a) t) l.
End Sort.

(* ================================================================== *)
(** ** The controller: [LOG_REGEX], [parse_logs], [read_logs] *)

Module System.

Definition is_word_char (c : ascii) : bool :=
  (in_range "a" "z" c || in_range "A" "Z" c || in_range "0" "9" c
   || Ascii.eqb c "_" || Ascii.eqb c ".")%bool.
Definition is_upper (c : ascii) : bool := in_range "A" "Z" c.
Definition not_colon (c : ascii) : bool := negb (Ascii.eqb c ":").
(** [.] matches everything but a newline. *)
Definition dot (c : ascii) : bool := negb (Ascii.eqb c newline).

Definition LOG_REGEX : regex :=
  Cat [Bol;
       Group "timestamp"
         (Cat [Exactly 4 is_digit; Lit "-"; Exactly 2 is_digit; Lit "-";
               Exactly 2 is_digit; Lit " ";
               Exactly 2 is_digit; Lit ":"; Exactly 2 is_digit; Lit ":";
               Exactly 2 is_digit; Lit ","; Plus is_digit]);
       Lit " "; Lit "["; Group "logger" (Plus is_word_char); Lit "]";
       Lit " "; Group "level" (Plus is_upper);
       Lit " "; Lit "("; Group "file" (Plus not_colon); Lit ":";
       Group "line" (Plus is_digit); Lit ")";
       Lit " "; Group "content" (Star dot); Eol].

(** [LogDict].  The class declares [line: int]; a [TypedDict] is not
    checked at run time, so the field holds whatever value is stored. *)
Record LogDict : Type := mkLog {
  timestamp : datetime;
  logger : string;
  level : string;
  file : string;
  line : pyval;
  content : string
}.

Definition set_content (log : LogDict) (c : string) : LogDict :=
  mkLog (timestamp log) (logger log) (level log) (file log) (line log) c.

Definition groupdict (g : groups) (name : string) : string :=
  match group name g with
  | Some v => v
  | None => EmptyString
  end.

(** The body of the [try] block of [parse_logs] for one line: the new
    entry, or the exception raised. *)
Definition parse_line (text : string) : result LogDict :=
  match re_match LOG_REGEX text with
  | None => Raise ValueError
  | Some (parsed_dict, _) =>
    ts <- strptime (groupdict parsed_dict "timestamp") ;;
    Ok (mkLog ts
              (groupdict parsed_dict "logger")
              (groupdict parsed_dict "level")
              (groupdict parsed_dict "file")
              (PyStr (groupdict parsed_dict "line"))
              (groupdict parsed_dict "content"))
  end.

(** [logs[-1]["content"] += f"\n{line}"] *)
Fixpoint append_to_last (logs : list LogDict) (text : string) : list LogDict :=
  match logs with
  | [] => []
  | [log] => [set_content log (content log ++ String newline text)]
  | log :: logs' => log :: append_to_last logs' text
  end.

(** One turn of the loop of [parse_logs]: [except ValueError] folds the
    line into the last entry when there is one; any other exception
    leaves the function. *)
Definition parse_step (logs : list LogDict) (text : string)
    : result (list LogDict) :=
  match parse_line text with
  | Ok log => Ok (logs ++ [log])%list
  | Raise ValueError =>
    match logs with
    | [] => Ok logs
    | _ :: _ => Ok (append_to_last logs text)
    end
  | Raise e => Raise e
  end.

Fixpoint parse_loop (logs : list LogDict) (lines : list string)
    : result (list LogDict) :=
  match lines with
  | [] => Ok logs
  | text :: lines' =>
    logs' <- parse_step logs text ;; parse_loop logs' lines'
  end.

Definition parse_logs (lines : list string) : result (list LogDict) :=
  parse_loop [] lines.

(** The variables that the closure [include_log] captures. *)
Record Criteria : Type := mkCriteria {
  since : pyval;            (* [None], or the deserialized cutoff *)
  levels : list string;     (* [request.params.getall("level")] *)
  loggers : list string;    (* [request.params.getall("logger")] *)
  search : option string    (* [None], or the search string *)
}.

(** [x in l] for a list of strings. *)
Definition mem (x : string) (l : list string) : bool :=
  existsb (String.eqb x) l.

(** A list is true when it is not empty. *)
Definition truthy {A : Type} (l : list A) : bool :=
  match l with
  | [] => false
  | _ :: _ => true
  end.

Definition include_log (c : Criteria) (log : LogDict) : result bool :=
  older <- match since c with
           | PyNone => Ok false
           | v => lt_datetime (timestamp log) v
           end ;;
  if older then Ok false
  else if (truthy (levels c) && negb (mem (level log) (levels c)))%bool
  then Ok false
  else if (truthy (loggers c) && negb (mem (logger log) (loggers c)))%bool
  then Ok false
  else match search c with
       | Some text =>
         if negb (contains (lower text) (lower (content log)))
         then Ok false else Ok true
       | None => Ok true
       end.

(** [[log for log in logs if include_log(log)]] *)
Fixpoint filter_logs (c : Criteria) (logs : list LogDict)
    : result (list LogDict) :=
  match logs with
  | [] => Ok []
  | log :: logs' =>
    keep <- include_log c log ;;
    kept <- filter_logs c logs' ;;
    Ok (if keep then log :: kept else kept)
  end.

(** [logs.sort(key=lambda log: log["timestamp"])] *)
Definition sort_logs (logs : list LogDict) : list LogDict :=
  sort_by dt_ltb timestamp logs.

(** The query proper, the end of [read_logs]: filter, sort, reverse. *)
Definition query_logs (c : Criteria) (logs : list LogDict)
    : result (list LogDict) :=
  kept <- filter_logs c logs ;;
  Ok (rev (sort_logs kept)).

(** What [read_logs] takes from [request.params]. *)
Record Params : Type := mkParams {
  param_since : option string;     (* [params.get("since", None)] *)
  param_level : list string;       (* [params.getall("level")] *)
  param_logger : list string;      (* [params.getall("logger")] *)
  param_search : option string     (* [params.get("search", None)] *)
}.

(** [self.configuration.get(key, None)], for keys that hold strings. *)
Definition Configuration : Type := string -> option string.

(** The file system as [read_logs] sees it: [os.path.exists], and the
    lines that [open(path, "r").readlines()] returns, terminators
    included, or nothing when the file cannot be opened or read, which
    raises [OSError]. *)
Record FileSystem : Type := mkFS {
  path_exists : string -> bool;
  readlines : string -> option (list string)
}.

Section ReadLogs.
(** Library functions that the controller calls and that are not part
    of it: [pibble]'s [Serializer.deserialize] and three functions of
    [os.path].  [deserialize] gives nothing where the real function
    raises, which it does with a [ValueError] on text in the shape of a
    date that is no date; [read_logs] calls it outside any [try]. *)
Variable deserialize : string -> option pyval.
Variables expanduser abspath realpath : string -> string.

Definition resolve (file_path : string) : string :=
  let file_path :=
    if prefix "~" file_path then expanduser file_path else file_path in
  realpath (abspath file_path).

(** [isinstance(v, datetime.date)]; a [datetime] is a [date] too. *)
Definition is_date (v : pyval) : bool :=
  match v with
  | PyDate _ | PyDateTime _ => true
  | _ => false
  end.

Definition read_since (raw : option string) : result pyval :=
  match raw with
  | None => Ok PyNone
  | Some text =>
    match deserialize text with
    | None => Raise ValueError
    | Some v => if negb (is_date v) then Raise BadRequestError else Ok v
    end
  end.

(** [handler != "file"] and [not file_path], for a value that is [None]
    or a string. *)
Definition is_file (handler : option string) : bool :=
  match handler with
  | Some text => String.eqb text "file"
  | None => false
  end.

Definition falsy (v : option string) : bool :=
  match v with
  | Some text => String.eqb text EmptyString
  | None => true
  end.

Definition read_logs (configuration : Configuration) (fs : FileSystem)
    (params : Params) : result (list LogDict) :=
  let handler := configuration "enfugue.engine.logging.handler" in
  if negb (is_file handler) then Ok []
  else
    match configuration "enfugue.engine.logging.file" with
    | None => Raise ConfigurationError
    | Some file_path =>
      if falsy (Some file_path) then Raise ConfigurationError
      else
        let file_path := resolve file_path in
        if negb (path_exists fs file_path) then Ok []
        else
          match readlines fs file_path with
          | None => Raise OSError
          | Some lines =>
            logs <- parse_logs lines ;;
            since <- read_since (param_since params) ;;
            query_logs (mkCriteria since (param_level params)
                          (param_logger params) (param_search params))
                       logs
          end
    end.
End ReadLogs.

End System.
Import System.

(* ================================================================== *)
(** ** Vocabulary of the statements *)

(** Non-increasing timestamps: an entry is never earlier than one that
    follows it. *)
Definition newest_first : LogDict -> LogDict -> Prop :=
  desc dt_ltb timestamp.

(** The entries of a list that carry the timestamp [t], in list order. *)
Definition with_timestamp (t : datetime) (logs : list LogDict) : list LogDict :=
  with_key dt_eqb timestamp t logs.

(** Criteria whose cutoff, when there is one, is a [datetime]. *)
Definition valid_criteria (c : Criteria) : bool :=
  match since c with
  | PyNone | PyDateTime _ => true
  | _ => false
  end.

Definition no_criteria : Criteria := mkCriteria PyNone [] [] None.

Definition lineA : string :=
  "2023-10-01 12:00:00,123456 [foo.bar] INFO (mod.py:10) hello".
Definition lineB : string := "Traceback (most recent call last):".

(** *** The grammar of a primary line

    The pieces of a line written in the layout of the pattern: the six
    numeric fields of the timestamp and its fraction, then logger, level,
    file, line number and content. *)

Fixpoint all_chars (p : ascii -> bool) (s : string) : bool :=
  match s with
  | EmptyString => true
  | String c s' => (p c && all_chars p s')%bool
  end.

Definition starts_with (p : ascii -> bool) (s : string) : bool :=
  match s with
  | EmptyString => false
  | String c _ => p c
  end.

Definition nonempty (s : string) : bool :=
  match s with
  | EmptyString => false
  | String _ _ => true
  end.

Fixpoint take (n : nat) (s : string) : string :=
  match n, s with
  | S n', String c s' => String c (take n' s')
  | _, _ => EmptyString
  end.

Fixpoint drop (n : nat) (s : string) : string :=
  match n, s with
  | S n', String _ s' => drop n' s'
  | _, _ => s
  end.


Definition digits (n : nat) (s : string) : bool :=
  (Nat.eqb (String.length s) n && all_chars is_digit s)%bool.

Definition some_of (p : ascii -> bool) (s : string) : bool :=
  (nonempty s && all_chars p s)%bool.

Record PrimaryLine : Type := mkPrimary {
  pl_year : string;
  pl_month : string;
  pl_day : string;
  pl_hour : string;
  pl_minute : string;
  pl_second : string;
  pl_fraction : string;
  pl_logger : string;
  pl_level : string;
  pl_file : string;
  pl_line : string;
  pl_content : string
}.

(** The layout alone: digit counts, character sets, nothing empty that
    must not be.  The fraction is any positive number of digits. *)
Definition structural (pl : PrimaryLine) : bool :=
  (digits 4 (pl_year pl) && digits 2 (pl_month pl) && digits 2 (pl_day pl)
   && digits 2 (pl_hour pl) && digits 2 (pl_minute pl)
   && digits 2 (pl_second pl) && some_of is_digit (pl_fraction pl)
   && some_of is_word_char (pl_logger pl) && some_of is_upper (pl_level pl)
   && some_of not_colon (pl_file pl) && some_of is_digit (pl_line pl)
   && all_chars dot (pl_content pl))%bool.

(** The date and the time of day exist. *)
Definition valid_calendar (pl : PrimaryLine) : bool :=
  (check_date_fields (int (pl_year pl)) (int (pl_month pl)) (int (pl_day pl))
   && check_time_fields (int (pl_hour pl)) (int (pl_minute pl))
        (int (pl_second pl)) 0)%bool.

(** The fields that the directives accept on two digits each. *)
Definition directives_accept (pl : PrimaryLine) : bool :=
  (between 1 (int (pl_month pl)) 12 && between 1 (int (pl_day pl)) 31
   && between 0 (int (pl_hour pl)) 23 && between 0 (int (pl_minute pl)) 59
   && between 0 (int (pl_second pl)) 61)%bool.

Definition timestamp_text (pl : PrimaryLine) : string :=
  pl_year pl ++ "-" ++ pl_month pl ++ "-" ++ pl_day pl ++ " "
  ++ pl_hour pl ++ ":" ++ pl_minute pl ++ ":" ++ pl_second pl ++ ","
  ++ pl_fraction pl.

Definition render (pl : PrimaryLine) : string :=
  timestamp_text pl ++ " [" ++ pl_logger pl ++ "] " ++ pl_level pl
  ++ " (" ++ pl_file pl ++ ":" ++ pl_line pl ++ ") " ++ pl_content pl.

(** The fraction read as microseconds: the digits present, padded on the
    right to six. *)
Definition microseconds (fraction : string) : Z :=
  int (fraction ++ zeros (6 - String.length fraction)).

(** The entry that the fields of a primary line describe. *)
Definition entry_of (pl : PrimaryLine) : LogDict :=
  mkLog (mkDateTime (int (pl_year pl)) (int (pl_month pl)) (int (pl_day pl))
                    (int (pl_hour pl)) (int (pl_minute pl))
                    (int (pl_second pl)) (microseconds (pl_fraction pl)))
        (pl_logger pl) (pl_level pl) (pl_file pl) (PyStr (pl_line pl))
        (pl_content pl).

(** A line is unmatched when the [try] block raises on it. *)
Definition unmatched (text : string) : bool :=
  match parse_line text with
  | Ok _ => false
  | Raise _ => true
  end.


(** The two ways in which [read_logs] finds no source. *)
Definition handler_key : string := "enfugue.engine.logging.handler".
Definition file_key : string := "enfugue.engine.logging.file".

Definition enabled_without_path (configuration : Configuration) : bool :=
  (is_file (configuration handler_key) && falsy (configuration file_key))%bool.

Definition source_absent (resolved : string -> string)
    (configuration : Configuration) (fs : FileSystem) : bool :=
  (negb (is_file (configuration handler_key))
   || match configuration file_key with
      | None => true
      | Some file_path =>
        (falsy (Some file_path) || negb (path_exists fs (resolved file_path)))%bool
      end)%bool.

(** *** Assembled entries and selected entries *)

(** What every entry made from a primary line satisfies: a timestamp
    that exists, and header fields drawn from the character sets of the
    pattern; the line number is kept as the text it was written in. *)
Definition entry_ok (log : LogDict) : bool :=
  let t := timestamp log in
  (check_date_fields (year t) (month t) (day t)
   && check_time_fields (hour t) (minute t) (second t) (microsecond t)
   && some_of is_word_char (logger log) && some_of is_upper (level log)
   && some_of not_colon (file log)
   && match line log with
      | PyStr text => some_of is_digit text
      | _ => false
      end)%bool.

(** The number of lines that open an entry. *)
Definition primary_count (lines : list string) : nat :=
  List.length (filter (fun text => negb (unmatched text)) lines).

(** Continuation lines as they are added to a content: each after a
    newline. *)
Fixpoint folded (lines : list string) : string :=
  match lines with
  | [] => EmptyString
  | text :: lines' => String newline text ++ folded lines'
  end.

(** Two entries that agree on every field but the content. *)
Definition same_header (a b : LogDict) : Prop :=
  timestamp a = timestamp b
  /\ logger a = logger b
  /\ level a = level b
  /\ file a = file b
  /\ line a = line b.

(** [needle] occurs in [hay]. *)
Definition occurs_in (needle hay : string) : Prop :=
  exists before after, hay = before ++ needle ++ after.

(** What the criteria ask of an entry, said without the code: not older
    than the cutoff, level and logger among those listed when any are
    listed, and the search text somewhere in the content, letter case
    aside. *)
Definition satisfies (c : Criteria) (log : LogDict) : Prop :=
  (forall cutoff, since c = PyDateTime cutoff ->
                  dt_ltb (timestamp log) cutoff = false)
  /\ (levels c = [] \/ In (level log) (levels c))
  /\ (loggers c = [] \/ In (logger log) (loggers c))
  /\ (forall text, search c = Some text ->
                   occurs_in (lower text) (lower (content log))).

(** An entry that [include_log] accepts. *)
Definition accepted (c : Criteria) (log : LogDict) : bool :=
  match include_log c log with
  | Ok true => true
  | _ => false
  end.

(** Timestamps in file order never decrease. *)
Definition chronological : list LogDict -> Prop :=
  StronglySorted (asc dt_ltb timestamp).

(* ================================================================== *)
(** ** The installation directories: [get_directory_size] and the
       handlers of [/api/installation] *)

Module Installation.

#[local] Set Warnings "-register-all".

(** What stands at a path, as [os.path] reports it.  A directory holds
    its listing, each name with what stands there, so that joining a name
    to the path of the directory is going to that entry.  [Missing] is a
    path at which nothing exists; as an entry of a listing it is a link
    whose target is gone.  [Special] is what exists and is neither a
    regular file nor a directory.  Links to files and directories are
    followed and stand as their targets.  [Dir] is a directory that can
    be read; [Locked] is a directory that exists, on which [os.listdir]
    raises [PermissionError], an [OSError]. *)
Inductive node : Type :=
| Missing
| File (size : Z)
| Special (size : Z)
| Dir (items : list (string * node))
| Locked.

(** The file system: what stands at each path. *)
Definition FileTree : Type := string -> node.

(** [get_directory_size(directory, recurse)], with [directory] given as
    what stands at that path.  [os.listdir] raises [NotADirectoryError],
    an [OSError], on what is no directory, and [PermissionError] on a
    directory that cannot be read. *)
Fixpoint get_directory_size (directory : node) (recurse : bool)
    : result (Z * Z * Z) :=
  match directory with
  | Missing => Ok (0, 0, 0)
  | File _ | Special _ | Locked => Raise OSError
  | Dir items =>
    let top_level_items := Z.of_nat (List.length items) in
    (fix loop (items : list (string * node)) (files size : Z)
         : result (Z * Z * Z) :=
       match items with
       | [] => Ok (top_level_items, files, size)
       | (item, path) :: items' =>
         match path with
         | File bytes => loop items' (files + 1) (size + bytes)
         | _ =>
           if recurse then
             match get_directory_size path true with
             | Ok (sub_items, sub_files, sub_size) =>
               loop items' (files + sub_files) (size + sub_size)
             | Raise e => Raise e
             end
           else loop items' files size
         end
       end) items 0 0
  end.

Definition DIRNAMES : list string :=
  ["cache"; "diffusers"; "checkpoint"; "lora"; "lycoris"; "inversion";
   "tensorrt"; "other"].

(** One value of the dictionary that [get_installation_summary] returns. *)
Record SizeInfo : Type := mkSizeInfo {
  info_items : Z;
  info_files : Z;
  info_bytes : Z;
  info_path : string
}.

(** One element of the list that [get_installation_details] returns. *)
Record DetailItem : Type := mkItem {
  item_type : string;
  item_name : string;
  item_bytes : Z
}.

(** [f"enfugue.engine.{dirname}"] *)
Definition engine_key (dirname : string) : string :=
  "enfugue.engine." ++ dirname.

(** A name without a dot.  The handlers for one directory take the name
    from the path of the request, where the pattern [[a-zA-Z0-9_]+]
    admits no dot. *)
Definition dot_free (name : string) : bool :=
  all_chars (fun c => negb (Ascii.eqb c ".")) name.

(** The two configuration objects of the controller, [self.user_config]
    and [self.configuration], come from [pibble] and from the base
    controller, not from this file.  They stand here as an interface:
    [lookup] is [.get(key, None)] and [assign] is the assignment
    [store[key] = value], taken to return. *)
Class Settings (S : Type) : Type := {
  lookup : S -> Configuration;
  assign : S -> string -> string -> S
}.

(** What is taken of such an object.  Its keys are paths whose steps the
    dots separate, so that assigning a key may replace what stands at a
    key that runs through it.  Two keys [enfugue.engine.<name>] of
    different names without a dot do not run through each other: reading
    one after it was assigned gives the value assigned, and assigning
    one leaves the other as it was. *)
Class SettingsLaws (S : Type) {settings : Settings S} : Prop := {
  lookup_assign :
    forall (s : S) (dirname value : string),
      dot_free dirname = true ->
      lookup (assign s (engine_key dirname) value) (engine_key dirname)
      = Some value;
  lookup_assign_other :
    forall (s : S) (dirname other value : string),
      dot_free dirname = true -> dot_free other = true ->
      other <> dirname ->
      lookup (assign s (engine_key dirname) value) (engine_key other)
      = lookup s (engine_key other)
}.

(** A store keyed on whole keys, the simplest object of that
    interface. *)
Definition assign_whole_key (configuration : Configuration) (key value : string)
    : Configuration :=
  fun k => if String.eqb k key then Some value else configuration k.

#[export] Instance whole_keys : Settings Configuration := {|
  lookup := fun configuration => configuration;
  assign := assign_whole_key
|}.

Section Handlers.
(** [os.path.join], [pathlib]'s [is_relative_to] on the engine root, and
    the root itself. *)
Variable join : string -> string -> string.
Variable engine_root : string.
Variable is_relative_to_root : string -> bool.

(** [self.configuration.get(f"enfugue.engine.{dirname}",
    os.path.join(self.engine_root, dirname))] *)
Definition engine_directory (configuration : Configuration)
    (dirname : string) : string :=
  match configuration (engine_key dirname) with
  | Some directory => directory
  | None => join engine_root dirname
  end.

(** The loop of [get_installation_summary] over the names. *)
Fixpoint summarize (configuration : Configuration) (tree : FileTree)
    (dirnames : list string) : result (list (string * SizeInfo)) :=
  match dirnames with
  | [] => Ok []
  | dirname :: dirnames' =>
    let directory := engine_directory configuration dirname in
    sized <- get_directory_size (tree directory) true ;;
    let '(items, files, size) := sized in
    sizes <- summarize configuration tree dirnames' ;;
    Ok ((dirname, mkSizeInfo items files size directory) :: sizes)
  end.

Definition get_installation_summary (configuration : Configuration)
    (tree : FileTree) : result (list (string * SizeInfo)) :=
  summarize configuration tree DIRNAMES.

(** The loop of [get_installation_details] over a listing.
    [os.path.getsize] raises [FileNotFoundError], an [OSError], on a link
    whose target is gone. *)
Fixpoint detail_items (items : list (string * node))
    : result (list DetailItem) :=
  match items with
  | [] => Ok []
  | (item, path) :: items' =>
    entry <- match path with
             | Dir _ | Locked =>
               sized <- get_directory_size path true ;;
               let '(sub_items, files, size) := sized in
               Ok (mkItem "directory" item size)
             | File bytes | Special bytes => Ok (mkItem "file" item bytes)
             | Missing => Raise OSError
             end ;;
    others <- detail_items items' ;;
    Ok (entry :: others)
  end.

Definition get_installation_details (configuration : Configuration)
    (tree : FileTree) (dirname : string) : result (list DetailItem) :=
  match tree (engine_directory configuration dirname) with
  | Dir items => detail_items items
  | Locked => Raise OSError
  | _ => Ok []
  end.

(** The two configuration objects. *)
Context {Database Memory : Type}.
Context {database : Settings Database} {memory : Settings Memory}.

(** What the handlers that change directories work on: the file system,
    the stored user configuration and the configuration in memory. *)
Record State : Type := mkState {
  st_tree : FileTree;
  st_user_config : Database;
  st_configuration : Memory
}.

(** [os.path.exists] *)
Definition exists_at (tree : FileTree) (path : string) : bool :=
  match tree path with
  | Missing => false
  | _ => true
  end.

(** [os.makedirs(path)], which is not part of the controller: the file
    system that it leaves and whether it returned.  Where it did not, it
    has raised an [OSError], as it does on a path that runs through a
    regular file. *)
Variable makedirs : FileTree -> string -> FileTree * bool.

(** The two assignments that save a directory. *)
Definition save_directory (st : State) (dirname path : string) : State :=
  mkState (st_tree st)
          (assign (st_user_config st) (engine_key dirname) path)
          (assign (st_configuration st) (engine_key dirname) path).

(** The state after [os.makedirs]: the configurations are as they
    were. *)
Definition with_tree (st : State) (tree : FileTree) : State :=
  mkState tree (st_user_config st) (st_configuration st).

(** The loop of [change_installation_directories] over
    [request.parsed["directories"]], a dictionary given as its items in
    order: the state and the list [not_created] after it, or the state
    at the moment [os.makedirs] raised, which ends the loop before the
    directory is saved. *)
Fixpoint change_each (create : bool) (directories : list (string * string))
    (st : State) (not_created : list string)
    : State * result (list string) :=
  match directories with
  | [] => (st, Ok not_created)
  | (dirname, path) :: directories' =>
    if exists_at (st_tree st) path
    then change_each create directories'
           (save_directory st dirname path) not_created
    else if (is_relative_to_root path || create)%bool
    then
      let made := makedirs (st_tree st) path in
      if snd made
      then change_each create directories'
             (save_directory (with_tree st (fst made)) dirname path)
             not_created
      else (with_tree st (fst made), Raise OSError)
    else change_each create directories' st (not_created ++ [path])
  end.

(** [change_installation_directories]: the state it leaves and how it
    ends.  [create] is the truth of [request.parsed.get("create", False)]. *)
Definition change_installation_directories (create : bool)
    (directories : list (string * string)) (st : State)
    : State * result unit :=
  match change_each create directories st [] with
  | (st', Ok []) => (st', Ok tt)
  | (st', Ok (_ :: _)) => (st', Raise BadRequestError)
  | (st', Raise e) => (st', Raise e)
  end.

(** [change_installation_directory], with [path] the real absolute path
    of the directory of the request. *)
Definition change_installation_directory (create : bool)
    (dirname path : string) (st : State) : State * result unit :=
  if exists_at (st_tree st) path
  then (save_directory st dirname path, Ok tt)
  else if (is_relative_to_root path || create)%bool
  then
    let made := makedirs (st_tree st) path in
    if snd made
    then (save_directory (with_tree st (fst made)) dirname path, Ok tt)
    else (with_tree st (fst made), Raise OSError)
  else (st, Raise BadRequestError).

(** A directory is saved under its key in both configurations. *)
Definition saved (st : State) (dirname path : string) : Prop :=
  lookup (st_configuration st) (engine_key dirname) = Some path
  /\ lookup (st_user_config st) (engine_key dirname) = Some path.

(** Two states hold the same directory for a name, in both
    configurations. *)
Definition same_directory (a b : State) (dirname : string) : Prop :=
  lookup (st_configuration a) (engine_key dirname)
  = lookup (st_configuration b) (engine_key dirname)
  /\ lookup (st_user_config a) (engine_key dirname)
     = lookup (st_user_config b) (engine_key dirname).
End Handlers.

Arguments State : clear implicits.

(** *** Vocabulary for the installation *)

(** The sizes of the regular files at and below a node, in the order
    of the listings. *)
Fixpoint files_below (n : node) : list Z :=
  match n with
  | File bytes => [bytes]
  | Dir items =>
    (fix go (items : list (string * node)) : list Z :=
       match items with
       | [] => []
       | (_, child) :: items' => (files_below child ++ go items')%list
       end) items
  | _ => []
  end.

(** A node that can be measured all the way down: nothing, or a
    directory in which whatever is not a regular file can itself be
    measured. *)
Fixpoint listable (n : node) : bool :=
  match n with
  | Missing => true
  | File _ | Special _ | Locked => false
  | Dir items =>
    (fix go (items : list (string * node)) : bool :=
       match items with
       | [] => true
       | (_, child) :: items' =>
         (match child with
          | File _ => true
          | _ => listable child
          end && go items')%bool
       end) items
  end.

(** The number of entries of a directory. *)
Definition entries (n : node) : Z :=
  match n with
  | Dir items => Z.of_nat (List.length items)
  | _ => 0
  end.

(** The sizes of the regular files that are entries of a listing. *)
Fixpoint direct_files (items : list (string * node)) : list Z :=
  match items with
  | [] => []
  | (_, File bytes) :: items' => bytes :: direct_files items'
  | _ :: items' => direct_files items'
  end.

Definition total (sizes : list Z) : Z := fold_right Z.add 0 sizes.

(** The loop of [get_directory_size] by itself, started with any counts. *)
Definition size_loop (top_level_items : Z) (recurse : bool)
    : list (string * node) -> Z -> Z -> result (Z * Z * Z) :=
  fix loop (items : list (string * node)) (files size : Z)
      : result (Z * Z * Z) :=
    match items with
    | [] => Ok (top_level_items, files, size)
    | (item, path) :: items' =>
      match path with
      | File bytes => loop items' (files + 1) (size + bytes)
      | _ =>
        if recurse then
          match get_directory_size path true with
          | Ok (sub_items, sub_files, sub_size) =>
            loop items' (files + sub_files) (size + sub_size)
          | Raise e => Raise e
          end
        else loop items' files size
      end
    end.

(** An entry whose measuring cannot fail. *)
Definition measurable (entry : string * node) : bool :=
  match snd entry with
  | File _ => true
  | _ => listable (snd entry)
  end.

Definition count (sizes : list Z) : Z := Z.of_nat (List.length sizes).

(** Induction on nodes that reaches into the listings. *)
Section NodeInduction.
Variable P : node -> Prop.
Hypothesis P_missing : P Missing.
Hypothesis P_file : forall bytes, P (File bytes).
Hypothesis P_special : forall bytes, P (Special bytes).
Hypothesis P_dir :
  forall items, Forall (fun entry => P (snd entry)) items -> P (Dir items).
Hypothesis P_locked : P Locked.

Fixpoint node_induction (n : node) : P n :=
  match n with
  | Missing => P_missing
  | File bytes => P_file bytes
  | Special bytes => P_special bytes
  | Dir items =>
    P_dir items
      ((fix all (items : list (string * node))
          : Forall (fun entry => P (snd entry)) items :=
          match items with
          | [] => Forall_nil _
          | (name, child) :: items' =>
            Forall_cons (name, child) (node_induction child) (all items')
          end) items)
  | Locked => P_locked
  end.
End NodeInduction.


End Installation.
Import Installation.

(* ================================================================== *)
(** ** Stable sorting by a key *)

Section SortTheory.
Context {A K : Type}.
Variable ltb : K -> K -> bool.
Variable eqb : K -> K -> bool.
Variable key : A -> K.

Hypothesis ltb_irrefl : forall x, ltb x x = false.
Hypothesis ltb_trans :
  forall x y z, ltb x y = true -> ltb y z = true -> ltb x z = true.
Hypothesis ltb_total :
  forall x y, ltb x y = false -> ltb y x = false -> x = y.
Hypothesis eqb_eq : forall x y, eqb x y = true <-> x = y.

Local Abbreviation asc := (asc ltb key).
Local Abbreviation desc := (desc ltb key).
Local Abbreviation with_key := (with_key eqb key).

Lemma ltb_asym x y : ltb x y = true -> ltb y x = false.
Proof.
  intros Hxy. destruct (ltb y x) eqn:Hyx; trivial.
  rewrite <- (ltb_irrefl x). symmetry. eapply ltb_trans; eassumption.
Qed.

Lemma asc_trans a b c : asc a b -> asc b c -> asc a c.
Proof.
  unfold asc. intros Hab Hbc.
  destruct (ltb (key c) (key a)) eqn:Hca; trivial.
  destruct (ltb (key a) (key b)) eqn:Hab'.
  - rewrite <- Hbc. symmetry. eapply ltb_trans; eassumption.
  - rewrite (ltb_total _ _ Hab' Hab) in Hca. congruence.
Qed.

Lemma insert_by_perm x l : Permutation (x :: l) (insert_by ltb key x l).
Proof.
  induction l as [|y l IH]; simpl; auto.
  destruct (ltb (key y) (key x)); auto.
  rewrite perm_swap. now constructor.
Qed.

Lemma sort_by_perm l : Permutation l (sort_by ltb key l).
Proof.
  induction l as [|x l IH]; simpl; auto.
  rewrite <- insert_by_perm. now constructor.
Qed.

Lemma insert_by_sorted x l :
  StronglySorted asc l -> StronglySorted asc (insert_by ltb key x l).
Proof.
  induction 1 as [|y l Hs IH Hy]; simpl.
  - repeat constructor.
  - destruct (ltb (key y) (key x)) eqn:Hyx.
    + constructor; trivial.
      rewrite <- insert_by_perm. constructor; trivial.
      now apply ltb_asym.
    + constructor.
      * now constructor.
      * constructor; trivial.
        rewrite Forall_forall in *. intros z Hz.
        apply asc_trans with y; auto.
  Qed.

Lemma sort_by_sorted l : StronglySorted asc (sort_by ltb key l).
Proof.
  induction l; simpl; [constructor | now apply insert_by_sorted].
Qed.

(** Stability: the elements of one key keep their order. *)
Lemma insert_by_stable t x l :
  with_key t (insert_by ltb key x l) = with_key t (x :: l).
Proof.
  induction l as [|y l IH]; trivial.
  simpl. destruct (ltb (key y) (key x)) eqn:Hyx; trivial.
  simpl in *. rewrite IH.
  destruct (eqb (key x) t) eqn:Hx, (eqb (key y) t) eqn:Hy; trivial.
  apply eqb_eq in Hx, Hy. rewrite Hx, Hy, ltb_irrefl in Hyx. discriminate.
Qed.

Lemma sort_by_stable t l : with_key t (sort_by ltb key l) = with_key t l.
Proof.
  induction l as [|x l IH]; trivial.
  simpl sort_by. rewrite insert_by_stable. simpl. now rewrite IH.
Qed.

Lemma sorted_app (R : A -> A -> Prop) l1 l2 :
  StronglySorted R l1 -> StronglySorted R l2 ->
  (forall a b, In a l1 -> In b l2 -> R a b) ->
  StronglySorted R (l1 ++ l2).
Proof.
  induction 1 as [|x l1 Hs IH Hx]; simpl; intros H2 H12; trivial.
  constructor.
  - apply IH; auto.
  - apply Forall_app. split; trivial.
    apply Forall_forall. auto.
Qed.

Lemma sorted_rev l : StronglySorted asc l -> StronglySorted desc (rev l).
Proof.
  induction 1 as [|x l Hs IH Hx]; simpl; [constructor|].
  apply sorted_app; trivial.
  - repeat constructor.
  - intros a b Ha [<-|[]]. apply in_rev in Ha.
    rewrite Forall_forall in Hx. now apply Hx.
Qed.

Lemma with_key_rev t l : with_key t (rev l) = rev (with_key t l).
Proof.
  unfold with_key. induction l as [|x l IH]; trivial.
  simpl. rewrite filter_app, IH. simpl.
  destruct (eqb (key x) t); simpl; trivial. now rewrite app_nil_r.
Qed.

Lemma with_key_In t a l : In a (with_key t l) <-> In a l /\ key a = t.
Proof.
  unfold with_key. rewrite filter_In. now rewrite eqb_eq.
Qed.

(** A descending list is determined by its groups of equal keys. *)
Lemma desc_unique l1 :
  forall l2,
    StronglySorted desc l1 -> StronglySorted desc l2 ->
    (forall t, with_key t l1 = with_key t l2) -> l1 = l2.
Proof.
  induction l1 as [|a l1 IH]; intros l2 H1 H2 Hg.
  - destruct l2 as [|b l2]; trivial.
    specialize (Hg (key b)). simpl in Hg.
    rewrite (proj2 (eqb_eq _ _) eq_refl) in Hg. discriminate.
  - destruct l2 as [|b l2].
    + specialize (Hg (key a)). simpl in Hg.
      rewrite (proj2 (eqb_eq _ _) eq_refl) in Hg. discriminate.
    + inversion H1 as [|? ? H1s H1a]; inversion H2 as [|? ? H2s H2b]; subst.
      rewrite Forall_forall in H1a, H2b.
      assert (Hk : key a = key b).
      { apply ltb_total.
        - assert (Hin : In b (with_key (key b) (a :: l1))).
          { rewrite Hg. apply with_key_In. split; [now left | trivial]. }
          apply with_key_In in Hin. destruct Hin as [[->|Hin] _].
          + apply ltb_irrefl.
          + exact (H1a _ Hin).
        - assert (Hin : In a (with_key (key a) (b :: l2))).
          { rewrite <- Hg. apply with_key_In. split; [now left | trivial]. }
          apply with_key_In in Hin. destruct Hin as [[->|Hin] _].
          + apply ltb_irrefl.
          + exact (H2b _ Hin). }
      assert (Hab : a = b).
      { specialize (Hg (key a)). simpl in Hg. rewrite <- Hk in Hg.
        rewrite (proj2 (eqb_eq _ _) eq_refl) in Hg. now injection Hg. }
      subst b. f_equal. apply IH; trivial.
      intros t. specialize (Hg t). simpl in Hg.
      destruct (eqb (key a) t); trivial. now injection Hg.
Qed.

Lemma with_key_nodup t l :
  NoDup (map key l) -> rev (with_key t l) = with_key t l.
Proof.
  intros Hnd.
  assert (Hlen : (List.length (with_key t l) <= 1)%nat).
  { induction l as [|x l IH]; simpl; [lia|].
    inversion Hnd as [|? ? Hx Hl]; subst.
    destruct (eqb (key x) t) eqn:Hxt; [|auto].
    apply eqb_eq in Hxt. simpl.
    destruct (with_key t l) as [|y r] eqn:Hw; simpl; [lia|].
    exfalso. apply Hx.
    assert (Hy : In y (with_key t l)) by (rewrite Hw; now left).
    apply with_key_In in Hy. destruct Hy as [Hy1 Hy2].
    rewrite Hxt, <- Hy2. now apply in_map. }
  destruct (with_key t l) as [|y [|z r]]; trivial. simpl in Hlen. lia.
Qed.
End SortTheory.

(* ================================================================== *)
(** ** The order of [datetime] values *)

Lemma tuple_ltb_irrefl a : tuple_ltb a a = false.
Proof.
  induction a as [|x a IH]; simpl; trivial. now rewrite Z.ltb_irrefl.
Qed.

Lemma tuple_ltb_trans a :
  forall b c, tuple_ltb a b = true -> tuple_ltb b c = true ->
              tuple_ltb a c = true.
Proof.
  induction a as [|x a IH]; intros [|y b] [|z c]; simpl; try congruence.
  destruct (Z.ltb_spec x y), (Z.ltb_spec y x), (Z.ltb_spec y z),
    (Z.ltb_spec z y), (Z.ltb_spec x z), (Z.ltb_spec z x);
    try congruence; try lia.
  apply IH.
Qed.

Lemma tuple_ltb_total a :
  forall b, List.length a = List.length b ->
            tuple_ltb a b = false -> tuple_ltb b a = false -> a = b.
Proof.
  induction a as [|x a IH]; intros [|y b]; simpl; try congruence.
  intros Hlen. injection Hlen as Hlen.
  destruct (Z.ltb_spec x y), (Z.ltb_spec y x); try congruence; try lia.
  intros H1 H2. f_equal; [lia | now apply IH].
Qed.

Lemma dt_ltb_irrefl t : dt_ltb t t = false.
Proof. apply tuple_ltb_irrefl. Qed.

Lemma dt_ltb_trans t u v :
  dt_ltb t u = true -> dt_ltb u v = true -> dt_ltb t v = true.
Proof. apply tuple_ltb_trans. Qed.

Lemma dt_ltb_total t u : dt_ltb t u = false -> dt_ltb u t = false -> t = u.
Proof.
  intros H1 H2.
  assert (H : fields t = fields u) by (now apply tuple_ltb_total).
  destruct t, u. unfold fields in H. simpl in H. now injection H as -> -> -> -> -> -> ->.
Qed.

Lemma dt_eqb_eq t u : dt_eqb t u = true <-> t = u.
Proof.
  unfold dt_eqb. rewrite !andb_true_iff, !Z.eqb_eq. split.
  - destruct t, u. simpl. intuition congruence.
  - intros ->. intuition.
Qed.

Lemma sort_logs_perm logs : Permutation logs (sort_logs logs).
Proof. apply sort_by_perm. Qed.

Lemma sort_logs_rev_sorted logs :
  StronglySorted newest_first (rev (sort_logs logs)).
Proof.
  apply sorted_rev, sort_by_sorted.
  - apply dt_ltb_irrefl.
  - apply dt_ltb_trans.
  - apply dt_ltb_total.
Qed.

Lemma sort_logs_rev_groups t logs :
  with_timestamp t (rev (sort_logs logs)) = rev (with_timestamp t logs).
Proof.
  unfold with_timestamp, sort_logs.
  rewrite with_key_rev, (sort_by_stable dt_ltb dt_eqb); trivial.
  - apply dt_ltb_irrefl.
  - apply dt_eqb_eq.
Qed.

(* ================================================================== *)
(** ** The filter *)

Lemma include_log_returns c log :
  valid_criteria c = true -> exists b, include_log c log = Ok b.
Proof.
  unfold valid_criteria, include_log. intros Hv.
  destruct (since c); try discriminate; simpl.
  - destruct (truthy (levels c) && _)%bool; [eauto|].
    destruct (truthy (loggers c) && _)%bool; [eauto|].
    destruct (search c); [|eauto]. destruct (negb _); eauto.
  - destruct (dt_ltb _ _); [eauto|].
    destruct (truthy (levels c) && _)%bool; [eauto|].
    destruct (truthy (loggers c) && _)%bool; [eauto|].
    destruct (search c); [|eauto]. destruct (negb _); eauto.
Qed.

Lemma filter_logs_returns c logs :
  valid_criteria c = true -> exists kept, filter_logs c logs = Ok kept.
Proof.
  intros Hv. induction logs as [|log logs [kept IH]]; simpl; [eauto|].
  destruct (include_log_returns c log Hv) as [b ->]. simpl.
  rewrite IH. simpl. eauto.
Qed.

(** Every entry that the filter keeps is one that [include_log] accepts. *)
Lemma filter_logs_kept c logs :
  forall kept, filter_logs c logs = Ok kept ->
               Forall (fun log => include_log c log = Ok true) kept.
Proof.
  induction logs as [|log logs IH]; simpl; intros kept H.
  - injection H as <-. constructor.
  - destruct (include_log c log) as [b|] eqn:Hb; simpl in H; [|discriminate].
    destruct (filter_logs c logs) as [kept'|]; simpl in H; [|discriminate].
    injection H as <-. destruct b; auto.
Qed.

(** A list of accepted entries passes the filter unchanged. *)
Lemma filter_logs_accepted c logs :
  Forall (fun log => include_log c log = Ok true) logs ->
  filter_logs c logs = Ok logs.
Proof.
  induction 1 as [|log logs Hlog _ IH]; simpl; trivial.
  now rewrite Hlog, IH.
Qed.

Lemma query_logs_inv c logs result :
  query_logs c logs = Ok result ->
  exists kept, filter_logs c logs = Ok kept /\ result = rev (sort_logs kept).
Proof.
  unfold query_logs. destruct (filter_logs c logs) as [kept|]; simpl;
    [|discriminate].
  intros H. injection H as <-. eauto.
Qed.

(* ================================================================== *)
(** ** The model at work *)

Example strptime_milliseconds :
  strptime "2023-10-01 12:00:00,123"
  = Ok (mkDateTime 2023 10 1 12 0 0 123000).
Proof. reflexivity. Qed.

(** The directives also take fields of one digit. *)
Example strptime_short_fields :
  strptime "2023-1-5 1:2:3,5" = Ok (mkDateTime 2023 1 5 1 2 3 500000).
Proof. reflexivity. Qed.

Example strptime_no_leap_day :
  strptime "2023-02-29 12:00:00,0" = Raise ValueError
  /\ strptime "2024-02-29 12:00:00,0" = Ok (mkDateTime 2024 2 29 12 0 0 0).
Proof. split; reflexivity. Qed.

(** [%S] accepts 60 and 61, the [datetime] constructor does not. *)
Example strptime_leap_second :
  strptime "2023-10-01 12:00:60,0" = Raise ValueError.
Proof. reflexivity. Qed.

(** [$] matches before the newline that ends the line, and [.] stops
    there: the content of a primary line never holds its terminator. *)
Example log_regex_terminator :
  option_map (fun m => (groupdict (fst m) "content", snd m))
             (re_match LOG_REGEX (lineA ++ String newline EmptyString))
  = Some ("hello", String newline EmptyString).
Proof. reflexivity. Qed.

Example search_ignores_case :
  include_log (mkCriteria PyNone [] [] (Some "ERROR"))
              (mkLog (mkDateTime 2023 10 1 12 0 0 0) "foo.bar" "INFO"
                     "mod.py" (PyStr "10") "an error occurred")
  = Ok true.
Proof. reflexivity. Qed.

(* ================================================================== *)
(** ** Parsing the example lines *)

(** C1. [parse_logs] on the one line
    ["2023-10-01 12:00:00,123456 [foo.bar] INFO (mod.py:10) hello"]
    returns exactly one entry, with timestamp 2023-10-01T12:00:00.123456,
    logger ["foo.bar"], level ["INFO"], file ["mod.py"] and content
    ["hello"]; its [line] is the string ["10"] that the pattern captured,
    which is not the integer 10 that [LogDict] declares. *)
Theorem parse_logs_lineA :
  parse_logs [lineA]
  = Ok [mkLog (mkDateTime 2023 10 1 12 0 0 123456)
              "foo.bar" "INFO" "mod.py" (PyStr "10") "hello"]
  /\ forall log, parse_logs [lineA] = Ok [log] ->
                 line log = PyStr "10" /\ line log <> PyInt 10.
Proof.
  split; [reflexivity|].
  intros log H. vm_compute in H. injection H as <-.
  split; [reflexivity | discriminate].
Qed.

(** C8. Assembling the lines [A; B], where [B] is
    ["Traceback (most recent call last):"], gives exactly one entry, and
    its content is ["hello"], a newline, then [B]. *)
Theorem parse_logs_continuation :
  exists log,
    parse_logs [lineA; lineB] = Ok [log]
    /\ content log = "hello" ++ String newline lineB.
Proof.
  eexists. split; reflexivity.
Qed.

(* ================================================================== *)
(** ** The query: filter, sort, reverse *)

(** C2. With [since] the bare date 2023-10-02, the query over an entry
    of 2023-10-02T00:00:00.000000, and the one over an entry of
    2023-10-01T23:59:59.999999, raise [TypeError]: the cutoff is compared
    as it is, no midnight of that date is formed, and a [datetime] is not
    ordered against a [date].  A bare date does pass the type check of
    [read_logs].  With the [datetime] of that midnight as cutoff the first
    entry is kept and the second is dropped. *)
Theorem since_bare_date_raises :
  let bare := mkCriteria (PyDate (mkDate 2023 10 2)) [] [] None in
  let midnight :=
    mkCriteria (PyDateTime (mkDateTime 2023 10 2 0 0 0 0)) [] [] None in
  let at_midnight :=
    mkLog (mkDateTime 2023 10 2 0 0 0 0) "foo.bar" "INFO" "mod.py"
          (PyStr "10") "hello" in
  let before_midnight :=
    mkLog (mkDateTime 2023 10 1 23 59 59 999999) "foo.bar" "INFO" "mod.py"
          (PyStr "10") "hello" in
  query_logs bare [at_midnight] = Raise TypeError
  /\ query_logs bare [before_midnight] = Raise TypeError
  /\ is_date (since bare) = true
  /\ query_logs midnight [at_midnight] = Ok [at_midnight]
  /\ query_logs midnight [before_midnight] = Ok [].
Proof.
  repeat split.
Qed.

(** C9. With no criteria at all the query returns every entry it is
    given and still orders them: the result is a rearrangement of the
    whole input, none filtered out; its timestamps never increase from
    first to last, whatever the order of the input; and the entries of
    one timestamp stand in the reverse of their input order.  It is the
    input stably sorted by timestamp and then reversed. *)
Theorem no_criteria_returns_all (logs : list LogDict) :
  exists result,
    query_logs no_criteria logs = Ok result
    /\ Permutation logs result
    /\ List.length result = List.length logs
    /\ StronglySorted newest_first result
    /\ (forall t, with_timestamp t result = rev (with_timestamp t logs))
    /\ result = rev (sort_logs logs).
Proof.
  exists (rev (sort_logs logs)).
  assert (Hp : Permutation logs (rev (sort_logs logs))).
  { eapply Permutation_trans; [apply sort_logs_perm | apply Permutation_rev]. }
  split; [|split; [|split; [|split; [|split]]]].
  - unfold query_logs.
    rewrite filter_logs_accepted; [reflexivity|].
    apply Forall_forall. reflexivity.
  - exact Hp.
  - symmetry. now apply Permutation_length.
  - apply sort_logs_rev_sorted.
  - intros t. apply sort_logs_rev_groups.
  - reflexivity.
Qed.

(** The query without criteria on three entries given out of order and
    on two entries of one timestamp: the latest comes first, and the two
    of one timestamp change places. *)
Example no_criteria_orders :
  let log s c := mkLog (mkDateTime 2023 10 1 12 0 s 0) "foo.bar" "INFO"
                       "mod.py" (PyStr "10") c in
  query_logs no_criteria [log 1 "a"; log 3 "b"; log 2 "c"]
  = Ok [log 3 "b"; log 2 "c"; log 1 "a"]
  /\ query_logs no_criteria [log 1 "a"; log 1 "b"]
     = Ok [log 1 "b"; log 1 "a"].
Proof.
  split; reflexivity.
Qed.

(** C5. For valid criteria the query returns a result; the result is
    the kept entries stably sorted by timestamp and reversed, its
    timestamps never increase from first to last, and the entries of one
    timestamp stand in the reverse of the order in which they were kept,
    the one appended latest first. *)
Theorem result_newest_first (c : Criteria) (logs : list LogDict) :
  valid_criteria c = true ->
  exists kept,
    filter_logs c logs = Ok kept
    /\ query_logs c logs = Ok (rev (sort_logs kept))
    /\ StronglySorted newest_first (rev (sort_logs kept))
    /\ forall t, with_timestamp t (rev (sort_logs kept))
                 = rev (with_timestamp t kept).
Proof.
  intros Hv. destruct (filter_logs_returns c logs Hv) as [kept Hk].
  exists kept. unfold query_logs. rewrite Hk.
  repeat split.
  - apply sort_logs_rev_sorted.
  - intros t. apply sort_logs_rev_groups.
Qed.

Lemma result_newest_first_witness :
  let c := mkCriteria (PyDateTime (mkDateTime 2023 10 1 0 0 0 0))
                      ["INFO"] [] (Some "HEL") in
  let log us := mkLog (mkDateTime 2023 10 1 12 0 0 us) "foo.bar" "INFO"
                      "mod.py" (PyStr "10") "hello" in
  valid_criteria c = true
  /\ exists kept,
       filter_logs c [log 2; log 1; log 2] = Ok kept
       /\ query_logs c [log 2; log 1; log 2] = Ok (rev (sort_logs kept))
       /\ StronglySorted newest_first (rev (sort_logs kept))
       /\ forall t, with_timestamp t (rev (sort_logs kept))
                    = rev (with_timestamp t kept).
Proof.
  split; [reflexivity|].
  apply (result_newest_first
           (mkCriteria (PyDateTime (mkDateTime 2023 10 1 0 0 0 0))
                       ["INFO"] [] (Some "HEL"))).
  reflexivity.
Defined.

(** C4, as stated, fails: two entries of one timestamp come back in
    swapped order when the query is applied to its own output. *)
Lemma query_twice_swaps_ties :
  ~ (forall c logs result,
        query_logs c logs = Ok result -> query_logs c result = Ok result).
Proof.
  intros H.
  pose (log text := mkLog (mkDateTime 2023 10 1 12 0 0 0) "foo.bar" "INFO"
                          "mod.py" (PyStr "10") text).
  specialize (H no_criteria [log "first"; log "second"]
                [log "second"; log "first"] eq_refl).
  vm_compute in H. discriminate.
Qed.

(** C4, amended.  Applying the query to its own output removes no
    entry: the second result is a rearrangement of the first, again with
    timestamps that never increase, in which the entries of one timestamp
    stand in reversed order; it is the very same sequence when no two
    entries of the output share a timestamp. *)
Theorem query_twice (c : Criteria) (logs result : list LogDict) :
  query_logs c logs = Ok result ->
  exists again,
    query_logs c result = Ok again
    /\ Permutation result again
    /\ StronglySorted newest_first again
    /\ (forall t, with_timestamp t again = rev (with_timestamp t result))
    /\ (NoDup (map timestamp result) -> again = result).
Proof.
  intros H. destruct (query_logs_inv _ _ _ H) as (kept & Hk & ->).
  assert (Hacc : filter_logs c (rev (sort_logs kept))
                 = Ok (rev (sort_logs kept))).
  { apply filter_logs_accepted, Forall_forall. intros log Hin.
    apply in_rev in Hin.
    apply (Permutation_in _ (Permutation_sym (sort_logs_perm kept))) in Hin.
    pose proof (filter_logs_kept _ _ _ Hk) as Hall.
    rewrite Forall_forall in Hall. now apply Hall. }
  exists (rev (sort_logs (rev (sort_logs kept)))).
  unfold query_logs at 1. rewrite Hacc. simpl.
  split; [reflexivity|]. split.
  { eapply Permutation_trans; [apply sort_logs_perm | apply Permutation_rev]. }
  split; [apply sort_logs_rev_sorted|]. split.
  { intros t. apply sort_logs_rev_groups. }
  intros Hnd.
  apply (desc_unique dt_ltb dt_eqb timestamp).
  - apply dt_ltb_irrefl.
  - apply dt_ltb_total.
  - apply dt_eqb_eq.
  - apply sort_logs_rev_sorted.
  - apply sort_logs_rev_sorted.
  - intros t. fold (with_timestamp t). rewrite sort_logs_rev_groups.
    apply (with_key_nodup dt_eqb timestamp); trivial. apply dt_eqb_eq.
Qed.

Lemma query_twice_witness :
  let log us := mkLog (mkDateTime 2023 10 1 12 0 0 us) "foo.bar" "INFO"
                      "mod.py" (PyStr "10") "hello" in
  query_logs no_criteria [log 1; log 3; log 2] = Ok [log 3; log 2; log 1]
  /\ exists again,
       query_logs no_criteria [log 3; log 2; log 1] = Ok again
       /\ Permutation [log 3; log 2; log 1] again
       /\ StronglySorted newest_first again
       /\ (forall t, with_timestamp t again
                     = rev (with_timestamp t [log 3; log 2; log 1]))
       /\ (NoDup (map timestamp [log 3; log 2; log 1])
           -> again = [log 3; log 2; log 1]).
Proof.
  intros log. split; [reflexivity|].
  apply (query_twice no_criteria [log 1; log 3; log 2]). reflexivity.
Defined.

(* ================================================================== *)
(** ** The matcher on runs of a class *)

Section MatcherTheory.
Context {A : Type}.
Implicit Types (k : string -> string -> option A).

Lemma option_retry (o : option A) :
  match o with Some x => Some x | None => None end = o.
Proof. now destruct o. Qed.

(** A greedy repetition without upper bound takes the whole run when the
    rest of the pattern accepts that. *)
Lemma greedy_some p run :
  forall lo rest k x,
    all_chars p run = true -> starts_with p rest = false ->
    (lo <= String.length run)%nat ->
    k run rest = Some x ->
    greedy p lo None (run ++ rest) k = Some x.
Proof.
  induction run as [|c run IH]; intros lo rest k x Hall Hrest Hlo Hk.
  - simpl in *. assert (lo = 0%nat) as -> by lia.
    destruct rest as [|d rest]; simpl in *; trivial. now rewrite Hrest.
  - simpl in Hall. apply andb_true_iff in Hall as [Hc Hall].
    simpl. rewrite Hc.
    rewrite (IH _ _ _ x); trivial. simpl in Hlo. lia.
Qed.

(** A repetition of exactly [n] takes [n] characters of the class. *)
Lemma greedy_exact p run :
  forall rest k,
    all_chars p run = true ->
    greedy p (String.length run) (Some (String.length run)) (run ++ rest) k
    = k run rest.
Proof.
  induction run as [|c run IH]; intros rest k Hall.
  - destruct rest; reflexivity.
  - simpl in Hall. apply andb_true_iff in Hall as [Hc Hall].
    simpl. rewrite Hc, IH; trivial. apply option_retry.
Qed.

(** With nothing after it that can fail, a bounded repetition takes as
    many characters of a run as its upper bound allows. *)
Lemma greedy_upto p hi :
  forall lo s (F : string -> string -> A),
    all_chars p s = true -> (lo <= String.length s)%nat -> (lo <= hi)%nat ->
    greedy p lo (Some hi) s (fun m rest => Some (F m rest))
    = Some (F (take hi s) (drop hi s)).
Proof.
  induction hi as [|hi IH]; intros lo s F Hall Hlo Hhi.
  - assert (lo = 0%nat) as -> by lia. destruct s; reflexivity.
  - destruct s as [|c s].
    + simpl in Hlo. assert (lo = 0%nat) as -> by lia. reflexivity.
    + simpl in Hall. apply andb_true_iff in Hall as [Hc Hall].
      simpl. rewrite Hc.
      rewrite (IH _ _ (fun m rest => F (String c m) rest)); trivial.
      * simpl in Hlo. lia.
      * lia.
Qed.
End MatcherTheory.

Lemma take_all n s : (String.length s <= n)%nat -> take n s = s.
Proof.
  revert s. induction n as [|n IH]; intros [|c s] H; simpl in *; trivial.
  - lia.
  - f_equal. apply IH. lia.
Qed.

Lemma drop_all n s : (String.length s <= n)%nat -> drop n s = EmptyString.
Proof.
  revert s. induction n as [|n IH]; intros [|c s] H; simpl in *; trivial.
  - lia.
  - apply IH. lia.
Qed.

Lemma drop_some n s : (n < String.length s)%nat -> drop n s <> EmptyString.
Proof.
  revert s. induction n as [|n IH]; intros [|c s] H; simpl in *;
    try lia; try discriminate.
  apply IH. lia.
Qed.

Lemma digit_cases c :
  is_digit c = true ->
  c = "0"%char \/ c = "1"%char \/ c = "2"%char \/ c = "3"%char
  \/ c = "4"%char \/ c = "5"%char \/ c = "6"%char \/ c = "7"%char
  \/ c = "8"%char \/ c = "9"%char.
Proof.
  destruct c as [[] [] [] [] [] [] [] []]; intros H; vm_compute in H;
    try discriminate; tauto.
Qed.

Lemma two_chars s :
  digits 2 s = true ->
  exists a b, s = String a (String b EmptyString)
              /\ is_digit a = true /\ is_digit b = true.
Proof.
  unfold digits. intros H. apply andb_true_iff in H as [Hlen Hall].
  destruct s as [|a [|b [|c s]]]; try discriminate.
  simpl in Hall. rewrite andb_true_r in Hall.
  apply andb_true_iff in Hall as [Ha Hb]. eauto.
Qed.

Lemma four_chars s :
  digits 4 s = true ->
  exists a b c d,
    s = String a (String b (String c (String d EmptyString)))
    /\ is_digit a = true /\ is_digit b = true
    /\ is_digit c = true /\ is_digit d = true.
Proof.
  unfold digits. intros H. apply andb_true_iff in H as [Hlen Hall].
  destruct s as [|a [|b [|c [|d [|e s]]]]]; try discriminate.
  simpl in Hall. rewrite andb_true_r in Hall.
  apply andb_true_iff in Hall as [Ha Hall].
  apply andb_true_iff in Hall as [Hb Hall].
  apply andb_true_iff in Hall as [Hc Hd].
  exists a, b, c, d. auto.
Qed.

(* ================================================================== *)
(** ** The pattern of [strptime] on a timestamp of the log layout *)

Section Directives.
Context {A : Type}.
Variable K : string -> bool -> string -> groups -> option A.

(** What follows a numeric directive in the format is a separator: it
    does not accept a digit. *)
Hypothesis K_rejects_digit :
  forall m b c s g, is_digit c = true -> K m b (String c s) g = None.

Ltac by_digits a b Ha Hb :=
  destruct (digit_cases a Ha) as [->|[->|[->|[->|[->|[->|[->|[->|[->| ->]]]]]]]]];
  destruct (digit_cases b Hb) as [->|[->|[->|[->|[->|[->|[->|[->|[->| ->]]]]]]]]];
  vm_compute;
  repeat rewrite K_rejects_digit by reflexivity;
  repeat rewrite option_retry; reflexivity.

Lemma rmatch_m bos a b s g :
  is_digit a = true -> is_digit b = true ->
  rmatch re_m bos (String a (String b s)) g K
  = if between 1 (int (String a (String b EmptyString))) 12
    then K (String a (String b EmptyString)) false s
           (("m", String a (String b EmptyString)) :: g)
    else None.
Proof. intros Ha Hb. by_digits a b Ha Hb. Qed.

Lemma rmatch_d bos a b s g :
  is_digit a = true -> is_digit b = true ->
  rmatch re_d bos (String a (String b s)) g K
  = if between 1 (int (String a (String b EmptyString))) 31
    then K (String a (String b EmptyString)) false s
           (("d", String a (String b EmptyString)) :: g)
    else None.
Proof. intros Ha Hb. by_digits a b Ha Hb. Qed.

Lemma rmatch_H bos a b s g :
  is_digit a = true -> is_digit b = true ->
  rmatch re_H bos (String a (String b s)) g K
  = if between 0 (int (String a (String b EmptyString))) 23
    then K (String a (String b EmptyString)) false s
           (("H", String a (String b EmptyString)) :: g)
    else None.
Proof. intros Ha Hb. by_digits a b Ha Hb. Qed.

Lemma rmatch_M bos a b s g :
  is_digit a = true -> is_digit b = true ->
  rmatch re_M bos (String a (String b s)) g K
  = if between 0 (int (String a (String b EmptyString))) 59
    then K (String a (String b EmptyString)) false s
           (("M", String a (String b EmptyString)) :: g)
    else None.
Proof. intros Ha Hb. by_digits a b Ha Hb. Qed.

Lemma rmatch_S bos a b s g :
  is_digit a = true -> is_digit b = true ->
  rmatch re_S bos (String a (String b s)) g K
  = if between 0 (int (String a (String b EmptyString))) 61
    then K (String a (String b EmptyString)) false s
           (("S", String a (String b EmptyString)) :: g)
    else None.
Proof. intros Ha Hb. by_digits a b Ha Hb. Qed.
End Directives.

Section Steps.
Context {A : Type}.
Implicit Types (k : string -> bool -> string -> groups -> option A).

Lemma rmatch_seq r1 r2 bos s g k :
  rmatch (Seq r1 r2) bos s g k
  = rmatch r1 bos s g (fun m1 b1 s1 g1 =>
      rmatch r2 b1 s1 g1 (fun m2 b2 s2 g2 => k (m1 ++ m2) b2 s2 g2)).
Proof. reflexivity. Qed.

Lemma rmatch_group name r bos s g k :
  rmatch (Group name r) bos s g k
  = rmatch r bos s g (fun m b s' g' => k m b s' ((name, m) :: g')).
Proof. reflexivity. Qed.

Lemma rmatch_lit c bos s g k :
  rmatch (Lit c) bos (String c s) g k = k (String c EmptyString) false s g.
Proof. simpl. now rewrite Ascii.eqb_refl. Qed.

Lemma rmatch_bol s g k :
  rmatch Bol true s g k = k EmptyString true s g.
Proof. reflexivity. Qed.

Lemma lit_rejects_digit l r c bos s g k :
  is_digit l = false -> is_digit c = true ->
  rmatch (Seq (Lit l) r) bos (String c s) g k = None.
Proof.
  intros Hl Hc. simpl. destruct (Ascii.eqb_spec l c); trivial.
  subst. congruence.
Qed.

Lemma spaces_reject_digit r c bos s g k :
  is_digit c = true ->
  rmatch (Seq (Plus is_space) r) bos (String c s) g k = None.
Proof.
  intros Hc.
  destruct (digit_cases c Hc) as [->|[->|[->|[->|[->|[->|[->|[->|[->| ->]]]]]]]]];
    reflexivity.
Qed.

Lemma rmatch_one_space c bos s g k :
  is_digit c = true ->
  rmatch (Plus is_space) bos (String " " (String c s)) g k
  = k " " false (String c s) g.
Proof.
  intros Hc.
  destruct (digit_cases c Hc) as [->|[->|[->|[->|[->|[->|[->|[->|[->| ->]]]]]]]]];
    simpl; apply option_retry.
Qed.

Lemma rmatch_Y bos a b c d s g k :
  is_digit a = true -> is_digit b = true ->
  is_digit c = true -> is_digit d = true ->
  rmatch re_Y bos (String a (String b (String c (String d s)))) g k
  = k (String a (String b (String c (String d EmptyString)))) false s
      (("Y", String a (String b (String c (String d EmptyString)))) :: g).
Proof.
  intros Ha Hb Hc Hd. simpl. now rewrite Ha, Hb, Hc, Hd.
Qed.
End Steps.

Lemma structural_fields pl :
  structural pl = true ->
  digits 4 (pl_year pl) = true /\ digits 2 (pl_month pl) = true
  /\ digits 2 (pl_day pl) = true /\ digits 2 (pl_hour pl) = true
  /\ digits 2 (pl_minute pl) = true /\ digits 2 (pl_second pl) = true
  /\ some_of is_digit (pl_fraction pl) = true
  /\ some_of is_word_char (pl_logger pl) = true
  /\ some_of is_upper (pl_level pl) = true
  /\ some_of not_colon (pl_file pl) = true
  /\ some_of is_digit (pl_line pl) = true
  /\ all_chars dot (pl_content pl) = true.
Proof.
  unfold structural. rewrite !andb_true_iff. tauto.
Qed.

Lemma format_match pl :
  structural pl = true ->
  re_match FORMAT_REGEX (timestamp_text pl)
  = if directives_accept pl
    then Some ([("f", take 6 (pl_fraction pl)); ("S", pl_second pl);
                ("M", pl_minute pl); ("H", pl_hour pl); ("d", pl_day pl);
                ("m", pl_month pl); ("Y", pl_year pl)],
               drop 6 (pl_fraction pl))
    else None.
Proof.
  intros Hs.
  destruct (structural_fields pl Hs)
    as (Hy & Hm & Hd & Hh & Hmi & Hse & Hf & _).
  unfold timestamp_text, directives_accept.
  destruct pl as [y m d h mi se f lg lv fl ln ct].
  cbn [pl_year pl_month pl_day pl_hour pl_minute pl_second pl_fraction] in *.
  destruct (four_chars _ Hy) as (y1 & y2 & y3 & y4 & -> & Hy1 & Hy2 & Hy3 & Hy4).
  destruct (two_chars _ Hm) as (m1 & m2 & -> & Hm1 & Hm2).
  destruct (two_chars _ Hd) as (d1 & d2 & -> & Hd1 & Hd2).
  destruct (two_chars _ Hh) as (h1 & h2 & -> & Hh1 & Hh2).
  destruct (two_chars _ Hmi) as (mi1 & mi2 & -> & Hmi1 & Hmi2).
  destruct (two_chars _ Hse) as (s1 & s2 & -> & Hs1 & Hs2).
  apply andb_true_iff in Hf as [Hfn Hfd].
  unfold re_match, FORMAT_REGEX. cbn [Cat append].
  rewrite rmatch_seq, rmatch_Y by assumption.
  rewrite rmatch_seq, rmatch_lit.
  rewrite rmatch_seq, rmatch_m;
    [|intros; now apply lit_rejects_digit|assumption|assumption].
  destruct (between 1 _ 12); [|reflexivity]. cbn [andb].
  rewrite rmatch_seq, rmatch_lit.
  rewrite rmatch_seq, rmatch_d;
    [|intros; now apply spaces_reject_digit|assumption|assumption].
  destruct (between 1 _ 31); [|reflexivity]. cbn [andb].
  rewrite rmatch_seq, rmatch_one_space by assumption.
  rewrite rmatch_seq, rmatch_H;
    [|intros; now apply lit_rejects_digit|assumption|assumption].
  destruct (between 0 _ 23); [|reflexivity]. cbn [andb].
  rewrite rmatch_seq, rmatch_lit.
  rewrite rmatch_seq, rmatch_M;
    [|intros; now apply lit_rejects_digit|assumption|assumption].
  destruct (between 0 _ 59); [|reflexivity]. cbn [andb].
  rewrite rmatch_seq, rmatch_lit.
  rewrite rmatch_seq, rmatch_S;
    [|intros; now apply lit_rejects_digit|assumption|assumption].
  destruct (between 0 _ 61); [|reflexivity].
  rewrite rmatch_seq, rmatch_lit.
  unfold re_f. rewrite rmatch_group. cbn [rmatch]. cbv beta.
  apply (greedy_upto is_digit 6 1 f
           (fun m rest =>
              ([("f", m); ("S", String s1 (String s2 ""));
                ("M", String mi1 (String mi2 ""));
                ("H", String h1 (String h2 ""));
                ("d", String d1 (String d2 ""));
                ("m", String m1 (String m2 ""));
                ("Y", String y1 (String y2 (String y3 (String y4 ""))))] : groups,
               rest))); trivial.
  - destruct f; [discriminate | simpl; lia].
  - lia.
Qed.

(* ================================================================== *)
(** ** [strptime] on a timestamp of the log layout *)

Lemma digit_value_bound c : is_digit c = true -> 0 <= digit_value c <= 9.
Proof.
  intros Hc.
  destruct (digit_cases c Hc) as [->|[->|[->|[->|[->|[->|[->|[->|[->| ->]]]]]]]]];
    vm_compute; split; discriminate.
Qed.

Lemma int_acc_bound s :
  all_chars is_digit s = true ->
  forall acc, 0 <= acc ->
    0 <= int_acc acc s < (acc + 1) * 10 ^ Z.of_nat (String.length s).
Proof.
  induction s as [|c s IH]; intros Hall acc Hacc.
  - simpl. lia.
  - simpl in Hall. apply andb_true_iff in Hall as [Hc Hall].
    pose proof (digit_value_bound c Hc) as Hv.
    specialize (IH Hall (10 * acc + digit_value c) ltac:(lia)).
    cbn [int_acc String.length]. rewrite Nat2Z.inj_succ, Z.pow_succ_r by lia.
    assert (0 < 10 ^ Z.of_nat (String.length s)) by (apply Z.pow_pos_nonneg; lia).
    nia.
Qed.

Lemma all_chars_app p s t :
  all_chars p (s ++ t) = (all_chars p s && all_chars p t)%bool.
Proof.
  induction s as [|c s IH]; simpl; trivial. now rewrite IH, andb_assoc.
Qed.

Lemma zeros_digits n : all_chars is_digit (zeros n) = true.
Proof. induction n; simpl; trivial. Qed.

Lemma zeros_length n : String.length (zeros n) = n.
Proof. induction n; simpl; auto. Qed.

Lemma app_length s t :
  String.length (s ++ t) = (String.length s + String.length t)%nat.
Proof. induction s; simpl; auto. Qed.

(** The fraction, padded to six digits, is a number of microseconds. *)
Lemma microseconds_range f :
  all_chars is_digit f = true -> (String.length f <= 6)%nat ->
  between 0 (microseconds f) 999999 = true.
Proof.
  intros Hf Hlen. unfold microseconds, int, between.
  pose proof (int_acc_bound (f ++ zeros (6 - String.length f))) as H.
  rewrite all_chars_app, Hf, zeros_digits in H.
  specialize (H eq_refl 0 ltac:(lia)).
  rewrite app_length, zeros_length in H.
  replace (String.length f + (6 - String.length f))%nat with 6%nat in H by lia.
  change (10 ^ Z.of_nat 6) with 1000000 in H.
  apply andb_true_iff. split; [apply Z.leb_le | apply Z.leb_le]; lia.
Qed.

Lemma days_in_month_max y m : days_in_month y m <= 31.
Proof.
  unfold days_in_month.
  destruct (m =? 2); [destruct (is_leap y); lia|].
  destruct (_ || _)%bool; lia.
Qed.

Lemma between_iff lo x hi : between lo x hi = true <-> lo <= x <= hi.
Proof. unfold between. rewrite andb_true_iff, !Z.leb_le. tauto. Qed.

(** A date and time that exist are written with digits that the
    directives accept. *)
Lemma valid_calendar_accepted pl :
  valid_calendar pl = true -> directives_accept pl = true.
Proof.
  unfold valid_calendar, directives_accept, check_date_fields,
    check_time_fields.
  rewrite !andb_true_iff, !between_iff.
  pose proof (days_in_month_max (int (pl_year pl)) (int (pl_month pl))).
  lia.
Qed.

Lemma check_time_fields_micro h mi s us :
  check_time_fields h mi s us
  = (check_time_fields h mi s 0 && between 0 us 999999)%bool.
Proof.
  unfold check_time_fields.
  change (between 0 0 999999) with true. now rewrite andb_true_r.
Qed.

Lemma strptime_timestamp pl :
  structural pl = true ->
  strptime (timestamp_text pl)
  = if (valid_calendar pl
        && Nat.leb (String.length (pl_fraction pl)) 6)%bool
    then Ok (timestamp (entry_of pl))
    else Raise ValueError.
Proof.
  intros Hs. unfold strptime. rewrite format_match by assumption.
  destruct (structural_fields pl Hs) as (_ & _ & _ & _ & _ & _ & Hf & _).
  apply andb_true_iff in Hf as [_ Hf].
  destruct (directives_accept pl) eqn:Hacc.
  - destruct (Nat.leb_spec (String.length (pl_fraction pl)) 6) as [Hlen|Hlen].
    + rewrite drop_all, take_all by assumption.
      cbn [String.eqb negb found_dict group].
      change (found_dict _ "Y") with (pl_year pl).
      change (found_dict _ "m") with (pl_month pl).
      change (found_dict _ "d") with (pl_day pl).
      change (found_dict _ "H") with (pl_hour pl).
      change (found_dict _ "M") with (pl_minute pl).
      change (found_dict _ "S") with (pl_second pl).
      change (found_dict _ "f") with (pl_fraction pl).
      unfold datetime_new. rewrite check_time_fields_micro.
      fold (microseconds (pl_fraction pl)).
      rewrite microseconds_range by assumption.
      rewrite andb_true_r, andb_true_r.
      fold (valid_calendar pl).
      destruct (valid_calendar pl); reflexivity.
    + rewrite andb_false_r.
      destruct (String.eqb_spec (drop 6 (pl_fraction pl)) EmptyString) as [E|E].
      * now apply drop_some in E.
      * reflexivity.
  - destruct (valid_calendar pl) eqn:Hv; [|reflexivity].
    apply valid_calendar_accepted in Hv. congruence.
Qed.

(* ================================================================== *)
(** ** [LOG_REGEX] on a line of the grammar *)

Section LogSteps.
Context {A : Type}.
Implicit Types (k : string -> bool -> string -> groups -> option A).

Lemma rmatch_two p a b s bos g k :
  p a = true -> p b = true ->
  rmatch (Exactly 2 p) bos (String a (String b s)) g k
  = k (String a (String b EmptyString)) false s g.
Proof.
  intros Ha Hb.
  apply (greedy_exact p (String a (String b EmptyString)) s
           (fun m rest =>
              k m (match m with EmptyString => bos | _ => false end) rest g)).
  simpl. now rewrite Ha, Hb.
Qed.

Lemma rmatch_four p a b c d s bos g k :
  p a = true -> p b = true -> p c = true -> p d = true ->
  rmatch (Exactly 4 p) bos (String a (String b (String c (String d s)))) g k
  = k (String a (String b (String c (String d EmptyString)))) false s g.
Proof.
  intros Ha Hb Hc Hd.
  apply (greedy_exact p
           (String a (String b (String c (String d EmptyString)))) s
           (fun m rest =>
              k m (match m with EmptyString => bos | _ => false end) rest g)).
  simpl. now rewrite Ha, Hb, Hc, Hd.
Qed.

Lemma rmatch_plus_some p run rest bos g k x :
  some_of p run = true -> starts_with p rest = false ->
  k run false rest g = Some x ->
  rmatch (Plus p) bos (run ++ rest) g k = Some x.
Proof.
  intros Hrun Hrest Hk. apply andb_true_iff in Hrun as [Hne Hall].
  unfold Plus. cbn [rmatch]. apply greedy_some; trivial.
  - destruct run; [discriminate | simpl; lia].
  - destruct run; [discriminate | exact Hk].
Qed.

Lemma rmatch_star_some p run rest g k x :
  all_chars p run = true -> starts_with p rest = false ->
  k run false rest g = Some x ->
  rmatch (Star p) false (run ++ rest) g k = Some x.
Proof.
  intros Hall Hrest Hk.
  unfold Star. cbn [rmatch]. apply greedy_some; trivial.
  - lia.
  - destruct run; exact Hk.
Qed.

Lemma rmatch_eol eol bos g k :
  eol = EmptyString \/ eol = String newline EmptyString ->
  rmatch Eol bos eol g k = k EmptyString bos eol g.
Proof. intros [->| ->]; reflexivity. Qed.
End LogSteps.

Lemma append_assoc_r (a b c : string) : (a ++ b) ++ c = a ++ (b ++ c).
Proof. induction a as [|x a IH]; simpl; [trivial | now rewrite IH]. Qed.

(** The groups that [LOG_REGEX] captures on a line of the grammar. *)
Lemma log_regex_match pl eol :
  structural pl = true ->
  eol = EmptyString \/ eol = String newline EmptyString ->
  re_match LOG_REGEX (render pl ++ eol)
  = Some ([("content", pl_content pl); ("line", pl_line pl);
           ("file", pl_file pl); ("level", pl_level pl);
           ("logger", pl_logger pl); ("timestamp", timestamp_text pl)],
          eol).
Proof.
  intros Hs Heol.
  destruct (structural_fields pl Hs)
    as (Hy & Hm & Hd & Hh & Hmi & Hse & Hf & Hlg & Hlv & Hfl & Hln & Hct).
  unfold render, timestamp_text.
  destruct pl as [y m d h mi se f lg lv fl ln ct].
  cbn [pl_year pl_month pl_day pl_hour pl_minute pl_second pl_fraction
       pl_logger pl_level pl_file pl_line pl_content] in *.
  destruct (four_chars _ Hy) as (y1 & y2 & y3 & y4 & -> & Hy1 & Hy2 & Hy3 & Hy4).
  destruct (two_chars _ Hm) as (m1 & m2 & -> & Hm1 & Hm2).
  destruct (two_chars _ Hd) as (d1 & d2 & -> & Hd1 & Hd2).
  destruct (two_chars _ Hh) as (h1 & h2 & -> & Hh1 & Hh2).
  destruct (two_chars _ Hmi) as (mi1 & mi2 & -> & Hmi1 & Hmi2).
  destruct (two_chars _ Hse) as (s1 & s2 & -> & Hs1 & Hs2).
  repeat rewrite append_assoc_r. cbn [append].
  unfold re_match, LOG_REGEX. cbn [Cat].
  rewrite rmatch_seq, rmatch_bol.
  rewrite rmatch_seq, rmatch_group.
  rewrite rmatch_seq, rmatch_four by assumption.
  rewrite rmatch_seq, rmatch_lit.
  rewrite rmatch_seq, rmatch_two by assumption.
  rewrite rmatch_seq, rmatch_lit.
  rewrite rmatch_seq, rmatch_two by assumption.
  rewrite rmatch_seq, rmatch_lit.
  rewrite rmatch_seq, rmatch_two by assumption.
  rewrite rmatch_seq, rmatch_lit.
  rewrite rmatch_seq, rmatch_two by assumption.
  rewrite rmatch_seq, rmatch_lit.
  rewrite rmatch_seq, rmatch_two by assumption.
  rewrite rmatch_seq, rmatch_lit.
  apply rmatch_plus_some; [assumption | reflexivity |].
  rewrite rmatch_seq, rmatch_lit.
  rewrite rmatch_seq, rmatch_lit.
  rewrite rmatch_seq, rmatch_group.
  apply rmatch_plus_some; [assumption | reflexivity |].
  rewrite rmatch_seq, rmatch_lit.
  rewrite rmatch_seq, rmatch_lit.
  rewrite rmatch_seq, rmatch_group.
  apply rmatch_plus_some; [assumption | reflexivity |].
  rewrite rmatch_seq, rmatch_lit.
  rewrite rmatch_seq, rmatch_lit.
  rewrite rmatch_seq, rmatch_group.
  apply rmatch_plus_some; [assumption | reflexivity |].
  rewrite rmatch_seq, rmatch_lit.
  rewrite rmatch_seq, rmatch_group.
  apply rmatch_plus_some; [assumption | reflexivity |].
  rewrite rmatch_seq, rmatch_lit.
  rewrite rmatch_seq, rmatch_lit.
  rewrite rmatch_seq, rmatch_group.
  apply rmatch_star_some; [assumption | destruct Heol as [->| ->]; reflexivity |].
  rewrite rmatch_eol by assumption.
  reflexivity.
Qed.

(* ================================================================== *)
(** ** The classifier: [parse_line] *)

Lemma strptime_raises text e : strptime text = Raise e -> e = ValueError.
Proof.
  unfold strptime, datetime_new.
  destruct (re_match FORMAT_REGEX text) as [[found rest]|]; [|congruence].
  destruct (negb _); [congruence|].
  destruct (_ && _)%bool; congruence.
Qed.

(** The [try] block raises nothing but [ValueError]. *)
Lemma parse_line_raises text e : parse_line text = Raise e -> e = ValueError.
Proof.
  unfold parse_line.
  destruct (re_match LOG_REGEX text) as [[parsed_dict rest]|]; [|congruence].
  destruct (strptime _) as [ts|e'] eqn:Hts; simpl; [discriminate|].
  intros H. injection H as <-. eapply strptime_raises, Hts.
Qed.

Lemma parse_line_primary pl eol :
  structural pl = true ->
  eol = EmptyString \/ eol = String newline EmptyString ->
  parse_line (render pl ++ eol)
  = if (valid_calendar pl
        && Nat.leb (String.length (pl_fraction pl)) 6)%bool
    then Ok (entry_of pl)
    else Raise ValueError.
Proof.
  intros Hs Heol. unfold parse_line.
  rewrite log_regex_match by assumption.
  change (groupdict _ "timestamp") with (timestamp_text pl).
  rewrite strptime_timestamp by assumption.
  destruct (_ && _)%bool; reflexivity.
Qed.

(* ================================================================== *)
(** ** The assembler: [parse_logs] *)

Lemma parse_step_unmatched logs text :
  unmatched text = true ->
  parse_step logs text = Ok (append_to_last logs text).
Proof.
  unfold unmatched, parse_step.
  destruct (parse_line text) as [log|e] eqn:Hp; [discriminate|].
  intros _. rewrite (parse_line_raises _ _ Hp).
  now destruct logs.
Qed.

Lemma parse_step_matched logs text :
  unmatched text = false ->
  exists log, parse_line text = Ok log
              /\ parse_step logs text = Ok (logs ++ [log])%list.
Proof.
  unfold unmatched, parse_step.
  destruct (parse_line text) as [log|e]; [eauto | discriminate].
Qed.

Lemma parse_step_returns logs text :
  exists logs', parse_step logs text = Ok logs'.
Proof.
  destruct (unmatched text) eqn:Hu.
  - rewrite parse_step_unmatched by assumption. eauto.
  - destruct (parse_step_matched logs text Hu) as (log & _ & ->). eauto.
Qed.

Lemma parse_loop_returns lines :
  forall logs, exists result, parse_loop logs lines = Ok result.
Proof.
  induction lines as [|text lines IH]; intros logs; simpl; [eauto|].
  destruct (parse_step_returns logs text) as [logs' ->]. simpl. apply IH.
Qed.

(** [parse_logs] always returns: no line makes it raise. *)
Lemma parse_logs_returns lines : exists logs, parse_logs lines = Ok logs.
Proof. apply parse_loop_returns. Qed.

Lemma parse_loop_app lines1 lines2 :
  forall logs,
    parse_loop logs (lines1 ++ lines2)
    = logs' <- parse_loop logs lines1 ;; parse_loop logs' lines2.
Proof.
  induction lines1 as [|text lines1 IH]; intros logs; simpl; trivial.
  destruct (parse_step logs text); simpl; trivial.
Qed.

Lemma append_to_last_snoc logs log text :
  append_to_last (logs ++ [log]) text
  = (logs ++ [set_content log (content log ++ String newline text)])%list.
Proof.
  induction logs as [|l logs IH]; trivial.
  cbn [List.app]. cbn [append_to_last]. rewrite IH.
  destruct logs; reflexivity.
Qed.

(** Replacing the content replaces the content and nothing else. *)
Lemma set_content_content log c : content (set_content log c) = c.
Proof. reflexivity. Qed.

Lemma set_content_header log c : same_header (set_content log c) log.
Proof. repeat split. Qed.

(** An unmatched line met while an entry is open goes to the end of the
    content of that entry, after a newline. *)
Lemma parse_step_absorbs logs log text :
  unmatched text = true ->
  exists log',
    parse_step (logs ++ [log]) text = Ok (logs ++ [log'])%list
    /\ content log' = content log ++ String newline text
    /\ same_header log' log.
Proof.
  intros Hu.
  exists (set_content log (content log ++ String newline text)).
  rewrite parse_step_unmatched, append_to_last_snoc by assumption.
  split; [reflexivity|]. split.
  - apply set_content_content.
  - apply set_content_header.
Qed.



Lemma append_empty_r s : s ++ EmptyString = s.
Proof. induction s as [|c s IH]; simpl; [trivial | now rewrite IH]. Qed.


(* ================================================================== *)
(** ** Lines of the grammar *)

(** C3, as stated, fails: a line of the grammar with a valid date and
    time and seven digits of fraction is unmatched. *)
Lemma seven_digit_fraction_unmatched :
  ~ (forall pl,
        structural pl = true -> valid_calendar pl = true ->
        unmatched (render pl) = false).
Proof.
  intros H.
  specialize (H (mkPrimary "2023" "10" "01" "12" "00" "00" "1234567"
                           "foo.bar" "INFO" "mod.py" "10" "hello")
                eq_refl eq_refl).
  vm_compute in H. discriminate.
Qed.

(** C3, amended.  A line of the grammar with a valid date and time is
    matched when its fraction has one to six digits, whatever their
    number: the entry carries the fields of the line, and the digits
    present, padded on the right to six, are its microseconds.  With
    seven digits or more the line is unmatched.  A newline that ends the
    line changes nothing. *)
Theorem primary_line_matched (pl : PrimaryLine) (eol : string) :
  structural pl = true ->
  valid_calendar pl = true ->
  eol = EmptyString \/ eol = String newline EmptyString ->
  parse_line (render pl ++ eol)
  = if Nat.leb (String.length (pl_fraction pl)) 6
    then Ok (entry_of pl)
    else Raise ValueError.
Proof.
  intros Hs Hv Heol. rewrite parse_line_primary by assumption.
  now rewrite Hv.
Qed.

Lemma primary_line_matched_witness :
  let pl := mkPrimary "2024" "02" "29" "23" "59" "59" "123"
                      "foo.bar" "INFO" "mod.py" "10" "hello" in
  render pl = "2024-02-29 23:59:59,123 [foo.bar] INFO (mod.py:10) hello"
  /\ parse_line (render pl ++ EmptyString)
     = Ok (mkLog (mkDateTime 2024 2 29 23 59 59 123000)
                 "foo.bar" "INFO" "mod.py" (PyStr "10") "hello").
Proof.
  split; [reflexivity|].
  apply (primary_line_matched
           (mkPrimary "2024" "02" "29" "23" "59" "59" "123"
                      "foo.bar" "INFO" "mod.py" "10" "hello") EmptyString).
  - reflexivity.
  - reflexivity.
  - left. reflexivity.
Defined.

(** C6.  A line that has the layout of the grammar but whose timestamp
    is no valid date and time is unmatched, and nothing is raised: the
    [try] block ends in a [ValueError] that [parse_logs] catches.  With an
    entry open the line is absorbed: the open entry comes back with the
    newline and the whole line at the end of its content and its other
    fields as they were, the entries before it untouched.  With no entry
    open the line is dropped.  And [parse_logs] returns on every input
    that holds such a line. *)
Theorem invalid_timestamp_absorbed (pl : PrimaryLine) (eol : string) :
  structural pl = true ->
  valid_calendar pl = false ->
  eol = EmptyString \/ eol = String newline EmptyString ->
  let text := render pl ++ eol in
  unmatched text = true
  /\ parse_line text = Raise ValueError
  /\ parse_step [] text = Ok []
  /\ (forall logs log,
        exists log',
          parse_step (logs ++ [log]) text = Ok (logs ++ [log'])%list
          /\ content log' = content log ++ String newline text
          /\ same_header log' log)
  /\ (forall before logs log,
        parse_logs before = Ok (logs ++ [log])%list ->
        exists log',
          parse_logs (before ++ [text]) = Ok (logs ++ [log'])%list
          /\ content log' = content log ++ String newline text
          /\ same_header log' log)
  /\ (forall before,
        parse_logs before = Ok [] -> parse_logs (before ++ [text]) = Ok [])
  /\ (forall before after,
        exists result, parse_logs (before ++ text :: after) = Ok result).
Proof.
  intros Hs Hv Heol text.
  assert (Hp : parse_line text = Raise ValueError).
  { unfold text. rewrite parse_line_primary by assumption. now rewrite Hv. }
  assert (Hu : unmatched text = true) by (unfold unmatched; now rewrite Hp).
  split; [exact Hu|]. split; [exact Hp|]. split; [|split; [|split; [|split]]].
  - now rewrite parse_step_unmatched.
  - intros logs log. now apply parse_step_absorbs.
  - intros before logs log Hb. unfold parse_logs in *.
    rewrite parse_loop_app, Hb. cbn [bind parse_loop].
    destruct (parse_step_absorbs logs log text Hu) as (log' & -> & Hc & Hh).
    exists log'. auto.
  - intros before Hb. unfold parse_logs in *.
    rewrite parse_loop_app, Hb. cbn [bind parse_loop].
    now rewrite parse_step_unmatched.
  - intros before after. apply parse_logs_returns.
Qed.

Lemma invalid_timestamp_absorbed_witness :
  let pl := mkPrimary "2023" "13" "01" "12" "00" "00" "123456"
                      "foo.bar" "INFO" "mod.py" "10" "hello" in
  let text := render pl ++ EmptyString in
  text = "2023-13-01 12:00:00,123456 [foo.bar] INFO (mod.py:10) hello"
  /\ parse_logs [lineA; text]
     = Ok [mkLog (mkDateTime 2023 10 1 12 0 0 123456)
                 "foo.bar" "INFO" "mod.py" (PyStr "10")
                 ("hello" ++ String newline text)]
  /\ parse_logs [text; lineA]
     = Ok [mkLog (mkDateTime 2023 10 1 12 0 0 123456)
                 "foo.bar" "INFO" "mod.py" (PyStr "10") "hello"]
  /\ unmatched text = true
  /\ parse_line text = Raise ValueError
  /\ parse_step [] text = Ok []
  /\ (forall logs log,
        exists log',
          parse_step (logs ++ [log]) text = Ok (logs ++ [log'])%list
          /\ content log' = content log ++ String newline text
          /\ same_header log' log)
  /\ (forall before logs log,
        parse_logs before = Ok (logs ++ [log])%list ->
        exists log',
          parse_logs (before ++ [text]) = Ok (logs ++ [log'])%list
          /\ content log' = content log ++ String newline text
          /\ same_header log' log)
  /\ (forall before,
        parse_logs before = Ok [] -> parse_logs (before ++ [text]) = Ok [])
  /\ (forall before after,
        exists result, parse_logs (before ++ text :: after) = Ok result).
Proof.
  split; [reflexivity|]. split; [reflexivity|]. split; [reflexivity|].
  apply (invalid_timestamp_absorbed
           (mkPrimary "2023" "13" "01" "12" "00" "00" "123456"
                      "foo.bar" "INFO" "mod.py" "10" "hello") EmptyString).
  - reflexivity.
  - reflexivity.
  - left. reflexivity.
Defined.



(** The same through [read_logs]: the lines that [readlines] returns
    reach [parse_logs] with their terminators. *)
Example read_logs_keeps_terminator :
  let nl := String newline EmptyString in
  let configuration := fun key : string =>
    if String.eqb key handler_key then Some "file"
    else if String.eqb key file_key then Some "~/enfugue.log"
    else None in
  let fs := mkFS (fun _ => true) (fun _ => Some [lineA ++ nl; lineB ++ nl]) in
  let same := fun p : string => p in
  read_logs (fun text => Some (PyStr text)) same same same configuration fs
            (mkParams None [] [] None)
  = Ok [mkLog (mkDateTime 2023 10 1 12 0 0 123456)
              "foo.bar" "INFO" "mod.py" (PyStr "10")
              ("hello" ++ nl ++ lineB ++ nl)].
Proof. reflexivity. Qed.

(* ================================================================== *)
(** ** The top of [read_logs]: configuration and source *)

Lemma include_log_raises c log e : include_log c log = Raise e -> e = TypeError.
Proof.
  unfold include_log.
  assert (H : forall r : result bool,
             (forall e', r = Raise e' -> e' = TypeError) ->
             (older <- r ;;
              if older then Ok false
              else if (truthy (levels c) && negb (mem (level log) (levels c)))%bool
              then Ok false
              else if (truthy (loggers c)
                       && negb (mem (logger log) (loggers c)))%bool
              then Ok false
              else match search c with
                   | Some text =>
                     if negb (contains (lower text) (lower (content log)))
                     then Ok false else Ok true
                   | None => Ok true
                   end) = Raise e -> e = TypeError).
  { intros [b|e'] Hr; simpl.
    - destruct b; [discriminate|].
      destruct (_ && _)%bool; [discriminate|].
      destruct (_ && _)%bool; [discriminate|].
      destruct (search c); [destruct (negb _)|]; discriminate.
    - intros E. injection E as <-. now apply Hr. }
  apply H. intros e'.
  destruct (since c); simpl; congruence.
Qed.

Lemma filter_logs_raises c logs e : filter_logs c logs = Raise e -> e = TypeError.
Proof.
  induction logs as [|log logs IH]; simpl; [discriminate|].
  destruct (include_log c log) as [b|e'] eqn:Hi; simpl.
  - destruct (filter_logs c logs); simpl; [discriminate|].
    intros E. injection E as <-. now apply IH.
  - intros E. injection E as <-. eapply include_log_raises, Hi.
Qed.

Lemma query_logs_raises c logs e : query_logs c logs = Raise e -> e = TypeError.
Proof.
  unfold query_logs.
  destruct (filter_logs c logs) eqn:Hf; simpl; [discriminate|].
  intros E. injection E as <-. eapply filter_logs_raises, Hf.
Qed.

Section Source.
Variable deserialize : string -> option pyval.
Variables expanduser abspath realpath : string -> string.

Local Abbreviation run := (read_logs deserialize expanduser abspath realpath).
Local Abbreviation resolved := (resolve expanduser abspath realpath).

(** A [ConfigurationError] leaves [read_logs] exactly when file logging
    is on and no path is set. *)
Lemma configuration_error_iff configuration fs params :
  run configuration fs params = Raise ConfigurationError
  <-> enabled_without_path configuration = true.
Proof.
  unfold read_logs, enabled_without_path.
  fold handler_key file_key.
  destruct (is_file (configuration handler_key)); simpl;
    [|split; discriminate].
  destruct (configuration file_key) as [file_path|]; [|split; reflexivity].
  simpl falsy. destruct (String.eqb file_path EmptyString);
    [split; reflexivity|].
  split; [|discriminate].
  destruct (negb (path_exists fs _)); [discriminate|].
  destruct (readlines fs _) as [lines|]; [|discriminate].
  destruct (parse_logs_returns lines) as [logs ->]. simpl.
  unfold read_since. destruct (param_since params) as [text|]; simpl.
  - destruct (deserialize text) as [v|]; simpl; [|discriminate].
    destruct (negb _); simpl; [discriminate|].
    intros H. apply query_logs_raises in H. discriminate.
  - intros H. apply query_logs_raises in H. discriminate.
Qed.

Lemma read_logs_absent configuration fs params :
  source_absent resolved configuration fs = true ->
  run configuration fs params
  = if enabled_without_path configuration
    then Raise ConfigurationError else Ok [].
Proof.
  unfold read_logs, source_absent, enabled_without_path.
  fold handler_key file_key.
  destruct (is_file (configuration handler_key)); cbn [negb andb orb];
    trivial.
  destruct (configuration file_key) as [file_path|]; trivial.
  destruct (falsy (Some file_path)); cbn [orb]; trivial.
  now intros ->.
Qed.
End Source.

(** C7, as stated, fails: with file logging on, a path set and the
    file there, a [since] that is no date makes the query fail, with a
    [BadRequestError]. *)
Lemma bad_since_fails_with_source :
  ~ (forall deserialize expanduser abspath realpath configuration fs params,
        (exists e,
            read_logs deserialize expanduser abspath realpath
                      configuration fs params = Raise e)
        <-> enabled_without_path configuration = true).
Proof.
  intros H.
  pose (configuration := fun key : string =>
          if String.eqb key handler_key then Some "file"
          else if String.eqb key file_key then Some "~/enfugue.log"
          else None).
  pose (fs := mkFS (fun _ => true)
                   (fun _ => Some [lineA ++ String newline EmptyString])).
  specialize (H (fun text => Some (PyStr text)) (fun p => p) (fun p => p)
                (fun p => p) configuration fs
                (mkParams (Some "yesterday") [] [] None)).
  destruct H as [H _].
  assert (E : enabled_without_path configuration = true).
  { apply H. exists BadRequestError. reflexivity. }
  vm_compute in E. discriminate.
Qed.

(** C7, amended.  When the source is absent the query fails if and
    only if file logging is on and no path is set, and then with a
    [ConfigurationError]; when logging is off or the resolved file does
    not exist it returns the empty list.  Over all inputs a
    [ConfigurationError] is raised in that one case only; with a source
    present the query can fail in other ways, as for a [since] that is
    no date. *)
Theorem read_logs_absent_source
    (deserialize : string -> option pyval)
    (expanduser abspath realpath : string -> string)
    (configuration : Configuration) (fs : FileSystem) (params : Params) :
  source_absent (resolve expanduser abspath realpath) configuration fs = true ->
  let outcome :=
    read_logs deserialize expanduser abspath realpath configuration fs params in
  outcome = (if enabled_without_path configuration
             then Raise ConfigurationError else Ok [])
  /\ ((exists e, outcome = Raise e)
      <-> enabled_without_path configuration = true)
  /\ (forall fs' params',
        read_logs deserialize expanduser abspath realpath
                  configuration fs' params' = Raise ConfigurationError
        <-> enabled_without_path configuration = true).
Proof.
  intros Habs outcome.
  assert (E : outcome = if enabled_without_path configuration
                        then Raise ConfigurationError else Ok []).
  { apply read_logs_absent, Habs. }
  split; [exact E|]. split.
  - rewrite E. destruct (enabled_without_path configuration).
    + split; eauto.
    + split; [intros [e He]|]; discriminate.
  - intros fs' params'. apply configuration_error_iff.
Qed.

Lemma read_logs_absent_source_witness :
  let enabled := fun key : string =>
    if String.eqb key handler_key then Some "file" else None in
  let fs := mkFS (fun _ => false) (fun _ => None) in
  let params := mkParams None [] [] None in
  let same := fun p : string => p in
  let outcome :=
    read_logs (fun text => Some (PyStr text)) same same same enabled fs params in
  source_absent (resolve same same same) enabled fs = true
  /\ outcome = Raise ConfigurationError
  /\ ((exists e, outcome = Raise e) <-> enabled_without_path enabled = true)
  /\ (forall fs' params',
        read_logs (fun text => Some (PyStr text)) same same same enabled fs' params'
        = Raise ConfigurationError
        <-> enabled_without_path enabled = true).
Proof.
  intros enabled fs params same outcome. split; [reflexivity|].
  exact (read_logs_absent_source (fun text => Some (PyStr text)) same same same
           enabled fs params eq_refl).
Defined.

(* ================================================================== *)
(** ** What a match tells about the text *)

Section MatcherInversion.
Context {A : Type}.

(** A repetition that succeeds has taken a run of the class whose length
    lies within its bounds, and the rest of the pattern has accepted what
    follows. *)
Lemma greedy_inv p s :
  forall lo hi (k : string -> string -> option A) x,
    greedy p lo hi s k = Some x ->
    exists m rest,
      s = m ++ rest /\ all_chars p m = true
      /\ (lo <= String.length m)%nat
      /\ (forall h, hi = Some h -> (String.length m <= h)%nat)
      /\ k m rest = Some x.
Proof.
  induction s as [|c s IH]; intros lo hi k x H.
  - assert (Hstop : match lo with O => k EmptyString EmptyString
                             | S _ => None end = Some x).
    { destruct hi as [[|h]|]; exact H. }
    destruct lo; [|discriminate].
    exists EmptyString, EmptyString. repeat split; trivial.
    intros h _. simpl. lia.
  - assert (Hcases :
      (match lo with O => k EmptyString (String c s) | S _ => None end
       = Some x)
      \/ (hi <> Some 0%nat /\ p c = true
          /\ greedy p (Nat.pred lo) (option_map Nat.pred hi) s
               (fun m rest => k (String c m) rest) = Some x)).
    { destruct hi as [[|h]|]; simpl in H.
      - now left.
      - destruct (p c); [|now left].
        destruct (greedy p (Nat.pred lo) (Some h) s _) eqn:E.
        + right. split; [discriminate|]. split; [reflexivity|].
          simpl. rewrite E. exact H.
        + now left.
      - destruct (p c); [|now left].
        destruct (greedy p (Nat.pred lo) None s _) eqn:E.
        + right. split; [discriminate|]. split; [reflexivity|].
          simpl. rewrite E. exact H.
        + now left. }
    destruct Hcases as [Hstop | (Hhi & Hc & Hin)].
    + destruct lo; [|discriminate].
      exists EmptyString, (String c s). repeat split; trivial.
      intros h _. simpl. lia.
    + apply IH in Hin as (m & rest & -> & Hall & Hlo & Hh & Hk).
      exists (String c m), rest. simpl. rewrite Hc, Hall.
      repeat split; trivial; [lia|].
      intros h ->. destruct h as [|h]; [congruence|].
      specialize (Hh h eq_refl). lia.
Qed.

Implicit Types (k : string -> bool -> string -> groups -> option A).

Lemma rmatch_lit_inv c bos s g k x :
  rmatch (Lit c) bos s g k = Some x ->
  exists s', s = String c s' /\ k (String c EmptyString) false s' g = Some x.
Proof.
  destruct s as [|c' s']; simpl; [discriminate|].
  destruct (Ascii.eqb_spec c c'); [|discriminate].
  subst. eauto.
Qed.

Lemma rmatch_rep_inv lo hi p bos s g k x :
  rmatch (Rep lo hi p) bos s g k = Some x ->
  exists m rest b,
    s = m ++ rest /\ all_chars p m = true
    /\ (lo <= String.length m)%nat
    /\ (forall h, hi = Some h -> (String.length m <= h)%nat)
    /\ k m b rest g = Some x.
Proof.
  cbn [rmatch]. intros H.
  apply greedy_inv in H as (m & rest & -> & Hall & Hlo & Hhi & Hk).
  eauto 10.
Qed.

Lemma rmatch_eol_inv bos s g k x :
  rmatch Eol bos s g k = Some x ->
  (s = EmptyString \/ s = String newline EmptyString)
  /\ k EmptyString bos s g = Some x.
Proof.
  destruct s as [|c [|d s]]; simpl; try discriminate; auto.
  destruct (Ascii.eqb_spec c newline); [|discriminate].
  subst. auto.
Qed.

Lemma rmatch_bol_inv bos s g k x :
  rmatch Bol bos s g k = Some x -> k EmptyString bos s g = Some x.
Proof. simpl. destruct bos; [trivial | discriminate]. Qed.
End MatcherInversion.

Lemma digits_of_run n m :
  all_chars is_digit m = true -> (n <= String.length m)%nat ->
  (String.length m <= n)%nat -> digits n m = true.
Proof.
  intros Hall Hlo Hhi. unfold digits. rewrite Hall, andb_true_r.
  apply Nat.eqb_eq. lia.
Qed.

Lemma some_of_run p m :
  all_chars p m = true -> (1 <= String.length m)%nat -> some_of p m = true.
Proof.
  intros Hall Hlen. unfold some_of. rewrite Hall, andb_true_r.
  destruct m; [simpl in Hlen; lia | reflexivity].
Qed.

Ltac invert_lit H :=
  rewrite ?rmatch_seq in H;
  apply rmatch_lit_inv in H as (? & -> & H); cbv beta in H.

Ltac invert_rep H m Hall Hlo Hhi :=
  rewrite ?rmatch_seq in H;
  apply rmatch_rep_inv in H as (m & ? & ? & -> & Hall & Hlo & Hhi & H);
  cbv beta in H.

(** A line that [LOG_REGEX] matches is a line of the grammar, possibly
    with the newline that ends it, and the groups are its pieces. *)
Lemma log_regex_match_inv text g rest :
  re_match LOG_REGEX text = Some (g, rest) ->
  exists pl,
    structural pl = true
    /\ (rest = EmptyString \/ rest = String newline EmptyString)
    /\ text = render pl ++ rest
    /\ g = [("content", pl_content pl); ("line", pl_line pl);
            ("file", pl_file pl); ("level", pl_level pl);
            ("logger", pl_logger pl); ("timestamp", timestamp_text pl)].
Proof.
  unfold re_match, LOG_REGEX, Exactly, Plus, Star. cbn [Cat]. intros H.
  rewrite rmatch_seq in H. apply rmatch_bol_inv in H. cbv beta in H.
  rewrite rmatch_seq, rmatch_group in H.
  invert_rep H y Hy Hy1 Hy2. invert_lit H.
  invert_rep H mo Hmo Hmo1 Hmo2. invert_lit H.
  invert_rep H d Hd Hd1 Hd2. invert_lit H.
  invert_rep H h Hh Hh1 Hh2. invert_lit H.
  invert_rep H mi Hmi Hmi1 Hmi2. invert_lit H.
  invert_rep H se Hse Hse1 Hse2. invert_lit H.
  invert_rep H f Hf Hf1 Hf2.
  invert_lit H. invert_lit H. rewrite rmatch_seq, rmatch_group in H.
  invert_rep H lg Hlg Hlg1 Hlg2.
  invert_lit H. invert_lit H. rewrite rmatch_seq, rmatch_group in H.
  invert_rep H lv Hlv Hlv1 Hlv2.
  invert_lit H. invert_lit H. rewrite rmatch_seq, rmatch_group in H.
  invert_rep H fl Hfl Hfl1 Hfl2.
  invert_lit H. rewrite rmatch_seq, rmatch_group in H.
  invert_rep H ln Hln Hln1 Hln2.
  invert_lit H. invert_lit H. rewrite rmatch_seq, rmatch_group in H.
  invert_rep H ct Hct Hct1 Hct2.
  apply rmatch_eol_inv in H as (Heol & H).
  injection H as <- <-.
  exists (mkPrimary y mo d h mi se f lg lv fl ln ct).
  split; [|split; [exact Heol|split]].
  - unfold structural.
    cbn [pl_year pl_month pl_day pl_hour pl_minute pl_second pl_fraction
         pl_logger pl_level pl_file pl_line pl_content].
    rewrite (digits_of_run 4 y), (digits_of_run 2 mo), (digits_of_run 2 d),
      (digits_of_run 2 h), (digits_of_run 2 mi), (digits_of_run 2 se),
      (some_of_run is_digit f), (some_of_run is_word_char lg),
      (some_of_run is_upper lv), (some_of_run not_colon fl),
      (some_of_run is_digit ln), Hct; auto.
  - unfold render, timestamp_text.
    cbn [pl_year pl_month pl_day pl_hour pl_minute pl_second pl_fraction
         pl_logger pl_level pl_file pl_line pl_content].
    repeat rewrite append_assoc_r. reflexivity.
  - reflexivity.
Qed.

Lemma parse_line_grammar text log :
  parse_line text = Ok log ->
  exists pl eol,
    structural pl = true /\ valid_calendar pl = true
    /\ (String.length (pl_fraction pl) <= 6)%nat
    /\ (eol = EmptyString \/ eol = String newline EmptyString)
    /\ text = render pl ++ eol
    /\ log = entry_of pl.
Proof.
  unfold parse_line.
  destruct (re_match LOG_REGEX text) as [[g rest]|] eqn:Hm; [|discriminate].
  apply log_regex_match_inv in Hm as (pl & Hs & Heol & -> & ->).
  change (groupdict _ "timestamp") with (timestamp_text pl).
  rewrite strptime_timestamp by assumption.
  destruct (valid_calendar pl) eqn:Hv; [|discriminate].
  destruct (Nat.leb_spec (String.length (pl_fraction pl)) 6) as [Hlen|Hlen];
    [|discriminate].
  simpl. intros H. injection H as <-.
  exists pl, rest. repeat split; trivial.
Qed.

(** X1.  What a line that opens an entry looks like, and where the
    fields of the entry come from.  When [parse_line] returns an entry
    the line is, in this order: a timestamp text, a space, the logger in
    square brackets, a space, the level, a space, the file and the line
    number in parentheses with a colon between them, a space, the
    content, and at most one newline that belongs to no field.  The
    timestamp of the entry is what [strptime] makes of the timestamp
    text, the line number is kept as its text, and the logger, the level
    and the file are not empty and drawn from the sets of the pattern;
    the content holds no newline. *)
Theorem parse_line_pieces (text : string) (log : LogDict) :
  parse_line text = Ok log ->
  exists ts ln eol,
    text = ts ++ " [" ++ logger log ++ "] " ++ level log
           ++ " (" ++ file log ++ ":" ++ ln ++ ") " ++ content log ++ eol
    /\ (eol = EmptyString \/ eol = String newline EmptyString)
    /\ strptime ts = Ok (timestamp log)
    /\ line log = PyStr ln
    /\ nonempty ln = true
    /\ some_of is_word_char (logger log) = true
    /\ some_of is_upper (level log) = true
    /\ some_of not_colon (file log) = true
    /\ all_chars dot (content log) = true.
Proof.
  unfold parse_line.
  destruct (re_match LOG_REGEX text) as [[g rest]|] eqn:Hm; [|discriminate].
  apply log_regex_match_inv in Hm as (pl & Hs & Heol & -> & ->).
  change (groupdict _ "timestamp") with (timestamp_text pl).
  change (groupdict _ "logger") with (pl_logger pl).
  change (groupdict _ "level") with (pl_level pl).
  change (groupdict _ "file") with (pl_file pl).
  change (groupdict _ "line") with (pl_line pl).
  change (groupdict _ "content") with (pl_content pl).
  destruct (strptime (timestamp_text pl)) as [t|e] eqn:Ht; [|discriminate].
  cbn [bind]. intros H. injection H as <-.
  destruct (structural_fields pl Hs)
    as (_ & _ & _ & _ & _ & _ & _ & Hlg & Hlv & Hfl & Hln & Hct).
  exists (timestamp_text pl), (pl_line pl), rest.
  cbn [timestamp logger level file line content].
  split; [|split; [exact Heol | split; [exact Ht | split; [reflexivity|]]]].
  - unfold render. now rewrite !append_assoc_r.
  - apply andb_true_iff in Hln as [Hln _]. auto 10.
Qed.

Lemma parse_line_pieces_witness :
  let log := mkLog (mkDateTime 2023 10 1 12 0 0 123456)
                   "foo.bar" "INFO" "mod.py" (PyStr "10") "hello" in
  parse_line (lineA ++ String newline EmptyString) = Ok log
  /\ exists ts ln eol,
       lineA ++ String newline EmptyString
       = ts ++ " [" ++ logger log ++ "] " ++ level log
         ++ " (" ++ file log ++ ":" ++ ln ++ ") " ++ content log ++ eol
       /\ (eol = EmptyString \/ eol = String newline EmptyString)
       /\ strptime ts = Ok (timestamp log)
       /\ line log = PyStr ln
       /\ nonempty ln = true
       /\ some_of is_word_char (logger log) = true
       /\ some_of is_upper (level log) = true
       /\ some_of not_colon (file log) = true
       /\ all_chars dot (content log) = true.
Proof.
  intros log. split; [reflexivity|].
  exact (parse_line_pieces (lineA ++ String newline EmptyString) log eq_refl).
Defined.

(* ================================================================== *)
(** ** The shape of an assembly *)

Lemma append_to_last_app pre cur text :
  cur <> [] ->
  append_to_last (pre ++ cur) text = (pre ++ append_to_last cur text)%list.
Proof.
  intros Hcur. induction pre as [|log pre IH]; trivial.
  cbn [List.app]. cbn [append_to_last]. rewrite IH.
  destruct (pre ++ cur)%list eqn:E; trivial.
  apply app_eq_nil in E. tauto.
Qed.

Lemma append_to_last_length logs text :
  List.length (append_to_last logs text) = List.length logs.
Proof.
  induction logs as [|log logs IH]; trivial.
  cbn [append_to_last]. destruct logs; [reflexivity|].
  cbn [List.length] in *. now rewrite IH.
Qed.

Lemma append_to_last_nonempty cur text :
  cur <> [] -> append_to_last cur text <> [].
Proof.
  intros Hcur E. apply (f_equal (@List.length _)) in E.
  rewrite append_to_last_length in E. destruct cur; [congruence|discriminate].
Qed.

(** Entries before the open ones take no part in what follows. *)
Lemma parse_loop_frame lines :
  forall pre cur,
    cur <> [] ->
    exists result,
      parse_loop cur lines = Ok result
      /\ parse_loop (pre ++ cur) lines = Ok (pre ++ result)%list.
Proof.
  induction lines as [|text lines IH]; intros pre cur Hcur; simpl; [eauto|].
  destruct (unmatched text) eqn:Hu.
  - rewrite !parse_step_unmatched, append_to_last_app by assumption.
    simpl. apply IH. now apply append_to_last_nonempty.
  - destruct (parse_step_matched cur text Hu) as (new & Hnew & ->).
    destruct (parse_step_matched (pre ++ cur) text Hu) as (new' & Hnew' & ->).
    assert (new' = new) as -> by congruence.
    simpl. rewrite <- app_assoc. apply IH.
    intros E. apply app_eq_nil in E. tauto.
Qed.

Lemma parse_loop_length lines :
  forall logs result,
    parse_loop logs lines = Ok result ->
    List.length result = (List.length logs + primary_count lines)%nat.
Proof.
  unfold primary_count.
  induction lines as [|text lines IH]; intros logs result; simpl.
  - intros H. injection H as <-. lia.
  - destruct (unmatched text) eqn:Hu; simpl.
    + rewrite parse_step_unmatched by assumption. simpl.
      intros H. apply IH in H. now rewrite append_to_last_length in H.
    + destruct (parse_step_matched logs text Hu) as (new & _ & ->). simpl.
      intros H. apply IH in H. rewrite length_app in H. simpl in H. lia.
Qed.

(** X2.  One entry per primary line: continuation lines neither add nor
    remove an entry. *)
Theorem parse_logs_count (lines : list string) :
  exists logs,
    parse_logs lines = Ok logs /\ List.length logs = primary_count lines.
Proof.
  destruct (parse_logs_returns lines) as [logs H].
  exists logs. split; trivial.
  apply parse_loop_length in H. simpl in H. exact H.
Qed.

(** X3.  Lines that come before the first primary line are dropped: the
    assembly is that of the lines which follow them. *)
Theorem parse_logs_leading (leading rest : list string) :
  Forall (fun text => unmatched text = true) leading ->
  parse_logs (leading ++ rest) = parse_logs rest.
Proof.
  unfold parse_logs. induction 1 as [|text leading Hu _ IH]; trivial.
  cbn [List.app parse_loop]. rewrite parse_step_unmatched by assumption.
  exact IH.
Qed.

Lemma parse_logs_leading_witness :
  Forall (fun text => unmatched text = true) [lineB; EmptyString]
  /\ parse_logs ([lineB; EmptyString] ++ [lineA]) = parse_logs [lineA].
Proof.
  assert (H : Forall (fun text => unmatched text = true) [lineB; EmptyString]).
  { repeat constructor. }
  split; [exact H|].
  exact (parse_logs_leading [lineB; EmptyString] [lineA] H).
Defined.

(** X4.  Assembly splits at a primary line: the entries of the lines
    before it, followed by the entries of the lines from it on. *)
Theorem parse_logs_split (before after : list string) (text : string) :
  unmatched text = false ->
  parse_logs (before ++ text :: after)
  = (first <- parse_logs before ;;
     second <- parse_logs (text :: after) ;;
     Ok (first ++ second)%list).
Proof.
  intros Hu. unfold parse_logs. rewrite parse_loop_app.
  destruct (parse_loop_returns before []) as [first ->]. cbn [bind].
  cbn [parse_loop].
  destruct (parse_step_matched first text Hu) as (new & Hnew & ->).
  destruct (parse_step_matched [] text Hu) as (new' & Hnew' & ->).
  assert (new' = new) as -> by congruence.
  cbn [bind List.app].
  destruct (parse_loop_frame after first [new]) as (second & -> & ->);
    [discriminate | reflexivity].
Qed.

Lemma parse_logs_split_witness :
  unmatched lineA = false
  /\ parse_logs ([lineA; lineB] ++ lineA :: [lineB])
     = (first <- parse_logs [lineA; lineB] ;;
        second <- parse_logs (lineA :: [lineB]) ;;
        Ok (first ++ second)%list).
Proof.
  split; [reflexivity|].
  apply (parse_logs_split [lineA; lineB] [lineB] lineA). reflexivity.
Defined.

Lemma parse_loop_folds more :
  Forall (fun t => unmatched t = true) more ->
  forall log,
    parse_loop [log] more = Ok [set_content log (content log ++ folded more)].
Proof.
  induction 1 as [|t more Ht _ IH]; intros log.
  - cbn [parse_loop folded]. rewrite append_empty_r. now destruct log.
  - cbn [parse_loop]. rewrite parse_step_unmatched by assumption.
    cbn [append_to_last bind]. rewrite IH.
    cbn [content set_content timestamp logger level file line folded].
    now rewrite append_assoc_r.
Qed.

(** X5.  A primary line followed by continuation lines only gives one
    entry: the entry of the primary line with, at the end of its
    content, each continuation line after a newline, in order, and with
    its other fields as the primary line gave them. *)
Theorem parse_logs_block (text : string) (more : list string) (log : LogDict) :
  parse_line text = Ok log ->
  Forall (fun t => unmatched t = true) more ->
  exists log',
    parse_logs (text :: more) = Ok [log']
    /\ content log' = content log ++ folded more
    /\ same_header log' log.
Proof.
  intros Hp Hmore. unfold parse_logs. cbn [parse_loop].
  unfold parse_step at 1. rewrite Hp. cbn [bind List.app].
  exists (set_content log (content log ++ folded more)).
  split; [now apply parse_loop_folds|]. split.
  - apply set_content_content.
  - apply set_content_header.
Qed.

Lemma parse_logs_block_witness :
  let log := mkLog (mkDateTime 2023 10 1 12 0 0 123456)
                   "foo.bar" "INFO" "mod.py" (PyStr "10") "hello" in
  parse_line lineA = Ok log
  /\ Forall (fun t => unmatched t = true) [lineB; "  File x.py, line 3"]
  /\ parse_logs (lineA :: [lineB; "  File x.py, line 3"])
     = Ok [mkLog (mkDateTime 2023 10 1 12 0 0 123456)
                 "foo.bar" "INFO" "mod.py" (PyStr "10")
                 ("hello" ++ String newline lineB
                  ++ String newline "  File x.py, line 3")]
  /\ exists log',
       parse_logs (lineA :: [lineB; "  File x.py, line 3"]) = Ok [log']
       /\ content log'
          = content log ++ folded [lineB; "  File x.py, line 3"]
       /\ same_header log' log.
Proof.
  intros log.
  assert (H : Forall (fun t => unmatched t = true)
                     [lineB; "  File x.py, line 3"]).
  { repeat constructor. }
  split; [reflexivity|]. split; [exact H|]. split; [reflexivity|].
  exact (parse_logs_block lineA [lineB; "  File x.py, line 3"] log
           eq_refl H).
Defined.

Lemma entry_of_ok pl :
  structural pl = true -> valid_calendar pl = true ->
  (String.length (pl_fraction pl) <= 6)%nat ->
  entry_ok (entry_of pl) = true.
Proof.
  intros Hs Hv Hlen.
  destruct (structural_fields pl Hs)
    as (_ & _ & _ & _ & _ & _ & Hf & Hlg & Hlv & Hfl & Hln & _).
  unfold entry_ok, entry_of.
  cbn [timestamp logger level file line year month day hour minute second
       microsecond].
  rewrite check_time_fields_micro, Hlg, Hlv, Hfl, Hln.
  apply andb_true_iff in Hf as [_ Hf].
  rewrite microseconds_range by assumption.
  unfold valid_calendar in Hv. apply andb_true_iff in Hv as [-> ->].
  reflexivity.
Qed.

Lemma append_to_last_ok logs text :
  Forall (fun log => entry_ok log = true) logs ->
  Forall (fun log => entry_ok log = true) (append_to_last logs text).
Proof.
  induction 1 as [|log logs Hlog Hlogs IH]; [constructor|].
  cbn [append_to_last]. destruct logs as [|log' logs].
  - constructor; [exact Hlog | constructor].
  - constructor; [exact Hlog | exact IH].
Qed.

Lemma parse_loop_ok lines :
  forall logs result,
    Forall (fun log => entry_ok log = true) logs ->
    parse_loop logs lines = Ok result ->
    Forall (fun log => entry_ok log = true) result.
Proof.
  induction lines as [|text lines IH]; intros logs result Hlogs; simpl.
  - intros H. now injection H as <-.
  - destruct (unmatched text) eqn:Hu.
    + rewrite parse_step_unmatched by assumption. simpl.
      apply IH. now apply append_to_last_ok.
    + destruct (parse_step_matched logs text Hu) as (new & Hnew & ->). simpl.
      apply IH. apply Forall_app. split; trivial.
      constructor; [|constructor].
      apply parse_line_grammar in Hnew
        as (pl & eol & Hs & Hv & Hlen & _ & _ & ->).
      now apply entry_of_ok.
Qed.

(** X6.  Whatever the lines, every assembled entry has a timestamp that
    exists, with microseconds below a million, a logger, a level and a
    file drawn from the character sets of the pattern, and as line number
    the digits of the line as text. *)
Theorem parse_logs_entries_ok (lines : list string) :
  exists logs,
    parse_logs lines = Ok logs
    /\ Forall (fun log => entry_ok log = true) logs.
Proof.
  destruct (parse_logs_returns lines) as [logs H].
  exists logs. split; trivial.
  eapply parse_loop_ok; [|exact H]. constructor.
Qed.

(* ================================================================== *)
(** ** What the filter selects *)

Lemma prefix_occurs needle hay :
  prefix needle hay = true <-> exists after, hay = needle ++ after.
Proof.
  revert hay. induction needle as [|c needle IH]; intros hay.
  - split; [intros _; now exists hay | intros _; now destruct hay].
  - destruct hay as [|d hay]; simpl.
    + split; [discriminate | intros [after H]; discriminate].
    + destruct (Ascii.ascii_dec c d) as [->|Hcd].
      * rewrite IH. split; intros [after H]; exists after; congruence.
      * split; [discriminate | intros [after H]; congruence].
Qed.

Lemma contains_unfold needle hay :
  contains needle hay
  = if prefix needle hay then true
    else match hay with
         | EmptyString => false
         | String _ hay' => contains needle hay'
         end.
Proof. now destruct hay. Qed.

Lemma contains_occurs needle hay :
  contains needle hay = true <-> occurs_in needle hay.
Proof.
  unfold occurs_in. split.
  - induction hay as [|c hay IH]; rewrite contains_unfold;
      destruct (prefix needle _) eqn:Hp; try discriminate.
    + intros _. apply prefix_occurs in Hp as [after ->].
      now exists EmptyString, after.
    + intros _. apply prefix_occurs in Hp as [after ->].
      now exists EmptyString, after.
    + intros H. apply IH in H as (before & after & ->).
      now exists (String c before), after.
  - intros (before & after & ->).
    induction before as [|c before IH]; rewrite contains_unfold.
    + replace (prefix needle _) with true; trivial.
      symmetry. apply prefix_occurs. now exists after.
    + destruct (prefix needle _); trivial.
Qed.

Lemma mem_In x l : mem x l = true <-> In x l.
Proof.
  unfold mem. rewrite existsb_exists. split.
  - intros (y & Hy & E). apply String.eqb_eq in E. now subst.
  - intros H. exists x. split; trivial. apply String.eqb_refl.
Qed.

Lemma listed_iff x l :
  (truthy l && negb (mem x l))%bool = false <-> l = [] \/ In x l.
Proof.
  destruct l as [|y l].
  - simpl. split; auto.
  - cbn [truthy andb]. rewrite negb_false_iff, mem_In.
    split; [auto | intros [H|H]; [discriminate | trivial]].
Qed.

Lemma search_found c log :
  match search c with
  | Some text => contains (lower text) (lower (content log))
  | None => true
  end = true
  <-> forall text, search c = Some text ->
                   occurs_in (lower text) (lower (content log)).
Proof.
  destruct (search c) as [text|].
  - rewrite contains_occurs. split.
    + intros H t E. now injection E as <-.
    + intros H. now apply H.
  - split; [discriminate | trivial].
Qed.

(** The answer of [include_log], when it gives one. *)
Lemma include_log_value c log b :
  include_log c log = Ok b ->
  b = (negb match since c with
            | PyDateTime cutoff => dt_ltb (timestamp log) cutoff
            | _ => false
            end
       && negb (truthy (levels c) && negb (mem (level log) (levels c)))
       && negb (truthy (loggers c) && negb (mem (logger log) (loggers c)))
       && match search c with
          | Some text => contains (lower text) (lower (content log))
          | None => true
          end)%bool.
Proof.
  unfold include_log.
  destruct (since c) as [|?|?|?|cutoff]; simpl; try discriminate.
  all: try destruct (dt_ltb (timestamp log) cutoff); simpl.
  all: destruct (truthy (levels c)
                 && negb (mem (level log) (levels c)))%bool; simpl.
  all: destruct (truthy (loggers c)
                 && negb (mem (logger log) (loggers c)))%bool; simpl.
  all: destruct (search c) as [text|]; simpl.
  all: try destruct (contains (lower text) (lower (content log))); simpl.
  all: congruence.
Qed.

(** When [include_log] answers, its answer says whether the entry
    satisfies the criteria. *)
Lemma include_log_satisfies c log b :
  include_log c log = Ok b -> (b = true <-> satisfies c log).
Proof.
  intros H. rewrite (include_log_value c log b H). unfold satisfies.
  rewrite !andb_true_iff, !negb_true_iff, !listed_iff, search_found.
  assert (Hsince :
    match since c with
    | PyDateTime cutoff => dt_ltb (timestamp log) cutoff
    | _ => false
    end = false
    <-> forall cutoff, since c = PyDateTime cutoff ->
                       dt_ltb (timestamp log) cutoff = false).
  { destruct (since c) as [|?|?|?|cutoff];
      try (split; [discriminate | trivial]).
    split.
    - intros E d Hd. now injection Hd as <-.
    - intros E. now apply E. }
  rewrite Hsince. tauto.
Qed.

Lemma filter_logs_In c logs :
  forall kept,
    filter_logs c logs = Ok kept ->
    forall log, In log kept <-> In log logs /\ include_log c log = Ok true.
Proof.
  induction logs as [|l logs IH]; simpl; intros kept H log.
  - injection H as <-. simpl. tauto.
  - destruct (include_log c l) as [b|] eqn:Hb; simpl in H; [|discriminate].
    destruct (filter_logs c logs) as [kept'|]; simpl in H; [|discriminate].
    injection H as <-. specialize (IH kept' eq_refl log).
    destruct b; simpl; rewrite IH.
    + split; [intros [<-|[? ?]]; auto | intros [[<-|?] ?]; auto].
    + split; [intros [? ?]; auto | intros [[<-|?] ?]; [congruence | auto]].
Qed.

(** X7.  The entries of a result are exactly the entries of the input
    that satisfy the criteria: not older than the cutoff, of a listed
    level and a listed logger when any are listed, and with the search
    text in their content, letter case aside. *)
Theorem query_logs_selects (c : Criteria) (logs result : list LogDict) :
  query_logs c logs = Ok result ->
  forall log, In log result <-> In log logs /\ satisfies c log.
Proof.
  intros H log. apply query_logs_inv in H as (kept & Hk & ->).
  rewrite <- in_rev.
  assert (Hperm : In log (sort_logs kept) <-> In log kept).
  { split; apply Permutation_in;
      [apply Permutation_sym|]; apply sort_logs_perm. }
  rewrite Hperm, (filter_logs_In _ _ _ Hk).
  split; intros [Hin Hs]; split; trivial.
  - now apply (include_log_satisfies c log true).
  - pose proof (filter_logs_In _ _ _ Hk) as Hall.
    assert (Hb : exists b, include_log c log = Ok b).
    { clear - Hk Hin. revert kept Hk.
      induction logs as [|l logs IH]; [destruct Hin|].
      simpl. intros kept.
      destruct (include_log c l) as [b|] eqn:Hb; simpl; [|discriminate].
      destruct (filter_logs c logs) as [kept'|]; simpl; [|discriminate].
      intros _. destruct Hin as [<-|Hin]; eauto. }
    destruct Hb as [b Hb]. rewrite Hb. f_equal.
    now apply (include_log_satisfies c log b).
Qed.

Lemma query_logs_selects_witness :
  let c := mkCriteria (PyDateTime (mkDateTime 2023 10 1 0 0 0 0))
                      ["INFO"] [] (Some "HEL") in
  let log us := mkLog (mkDateTime 2023 10 1 12 0 0 us) "foo.bar" "INFO"
                      "mod.py" (PyStr "10") "hello" in
  query_logs c [log 1; log 2] = Ok [log 2; log 1]
  /\ forall l, In l [log 2; log 1] <-> In l [log 1; log 2] /\ satisfies c l.
Proof.
  intros c log. split; [reflexivity|].
  apply (query_logs_selects c [log 1; log 2] [log 2; log 1]). reflexivity.
Defined.

(* ================================================================== *)
(** ** A log in chronological order *)

Lemma sort_by_sorted_id {A K : Type} (ltb : K -> K -> bool) (key : A -> K) l :
  StronglySorted (asc ltb key) l -> sort_by ltb key l = l.
Proof.
  induction 1 as [|x l Hs IH Hx]; trivial.
  simpl. rewrite IH. destruct l as [|y l]; trivial.
  simpl. apply Forall_inv in Hx. unfold asc in Hx. now rewrite Hx.
Qed.

Lemma filter_logs_sorted (R : LogDict -> LogDict -> Prop) c logs :
  StronglySorted R logs ->
  forall kept, filter_logs c logs = Ok kept -> StronglySorted R kept.
Proof.
  induction 1 as [|l logs Hs IH Hl]; simpl; intros kept H.
  - injection H as <-. constructor.
  - destruct (include_log c l) as [b|]; simpl in H; [|discriminate].
    destruct (filter_logs c logs) as [kept'|] eqn:Hk; simpl in H;
      [|discriminate].
    injection H as <-. specialize (IH kept' eq_refl).
    destruct b; trivial. constructor; trivial.
    rewrite Forall_forall in *. intros x Hx. apply Hl.
    now apply (filter_logs_In _ _ _ Hk).
Qed.

(** X8.  When the timestamps of the assembled entries never decrease, as
    in a log written in order of time, the query returns the kept
    entries in exactly the reverse of their file order; with no criteria,
    the whole assembly reversed. *)
Theorem query_logs_chronological (c : Criteria) (logs : list LogDict) :
  chronological logs ->
  (forall kept, filter_logs c logs = Ok kept ->
                query_logs c logs = Ok (rev kept))
  /\ query_logs no_criteria logs = Ok (rev logs).
Proof.
  intros Hc. split.
  - intros kept Hk. unfold query_logs. rewrite Hk. simpl.
    unfold sort_logs. rewrite sort_by_sorted_id; trivial.
    now apply (filter_logs_sorted _ c logs).
  - unfold query_logs. rewrite filter_logs_accepted.
    + simpl. unfold sort_logs. now rewrite sort_by_sorted_id.
    + apply Forall_forall. reflexivity.
Qed.

Lemma query_logs_chronological_witness :
  let c := mkCriteria PyNone ["INFO"] [] None in
  let log us lv := mkLog (mkDateTime 2023 10 1 12 0 0 us) "foo.bar" lv
                         "mod.py" (PyStr "10") "hello" in
  let logs := [log 1 "INFO"; log 1 "DEBUG"; log 1 "INFO"; log 2 "INFO"] in
  chronological logs
  /\ (forall kept, filter_logs c logs = Ok kept ->
                   query_logs c logs = Ok (rev kept))
  /\ query_logs no_criteria logs = Ok (rev logs).
Proof.
  intros c log logs.
  assert (H : chronological logs).
  { repeat constructor. }
  split; [exact H|]. exact (query_logs_chronological c logs H).
Defined.

(* ================================================================== *)
(** ** The check of [since] *)




(** A deserializer that raises on the text of a date that does not
    exist: the request does not end as a bad request but in the
    [ValueError], while a text that is no date at all is a bad request. *)
Example since_no_such_date :
  let deserialize := fun text : string =>
    if String.eqb text "2023-13-45" then None else Some (PyStr text) in
  let configuration := fun key : string =>
    if String.eqb key handler_key then Some "file"
    else if String.eqb key file_key then Some "/var/log/enfugue.log"
    else None in
  let fs := mkFS (fun _ => true) (fun _ => Some [lineA]) in
  let same := fun p : string => p in
  read_logs deserialize same same same configuration fs
            (mkParams (Some "2023-13-45") [] [] None)
  = Raise ValueError
  /\ read_logs deserialize same same same configuration fs
               (mkParams (Some "yesterday") [] [] None)
     = Raise BadRequestError.
Proof.
  split; reflexivity.
Qed.

(* ================================================================== *)
(** ** Measuring a directory *)


Lemma get_directory_size_dir items recurse :
  get_directory_size (Dir items) recurse
  = size_loop (Z.of_nat (List.length items)) recurse items 0 0.
Proof. reflexivity. Qed.

Lemma files_below_dir items :
  files_below (Dir items) = flat_map (fun entry => files_below (snd entry)) items.
Proof.
  simpl. induction items as [|[name child] items IH]; trivial.
  simpl. now rewrite IH.
Qed.

Lemma listable_dir items : listable (Dir items) = forallb measurable items.
Proof.
  simpl. induction items as [|[name child] items IH]; trivial.
  cbn [forallb measurable snd]. rewrite <- IH. reflexivity.
Qed.

Lemma total_app a b : total (a ++ b) = total a + total b.
Proof. unfold total. induction a as [|x a IH]; simpl; lia. Qed.

Lemma count_app a b : count (a ++ b) = count a + count b.
Proof. unfold count. rewrite length_app. lia. Qed.

Lemma sizes_eq (top a a' b b' : Z) :
  a = a' -> b = b' -> @Ok (Z * Z * Z) (top, a, b) = Ok (top, a', b').
Proof. now intros -> ->. Qed.

Lemma size_loop_recursive top items :
  Forall (fun entry =>
            get_directory_size (snd entry) true
            = if listable (snd entry)
              then Ok (entries (snd entry), count (files_below (snd entry)),
                       total (files_below (snd entry)))
              else Raise OSError) items ->
  forall files size,
    size_loop top true items files size
    = if forallb measurable items
      then Ok (top,
               files + count (flat_map (fun e => files_below (snd e)) items),
               size + total (flat_map (fun e => files_below (snd e)) items))
      else Raise OSError.
Proof.
  induction 1 as [|[name child] items Hchild _ IH]; intros files size.
  - simpl. change (count []) with 0. change (total []) with 0.
    apply sizes_eq; lia.
  - cbn [size_loop forallb flat_map snd]. cbn [snd] in Hchild.
    rewrite count_app, total_app.
    destruct child as [|bytes|bytes|sub|].
    + rewrite Hchild. cbn [listable measurable snd andb].
      fold (size_loop top true). rewrite IH.
      destruct (forallb measurable items); trivial.
      apply sizes_eq; lia.
    + fold (size_loop top true). rewrite IH.
      cbn [measurable snd andb files_below].
      destruct (forallb measurable items); trivial.
      change (count [bytes]) with 1. change (total [bytes]) with (bytes + 0).
      apply sizes_eq; lia.
    + rewrite Hchild. reflexivity.
    + rewrite Hchild. cbn [measurable snd].
      destruct (listable (Dir sub)); [|reflexivity].
      cbn [andb]. fold (size_loop top true). rewrite IH.
      destruct (forallb measurable items); trivial.
      apply sizes_eq; lia.
    + rewrite Hchild. reflexivity.
Qed.

Lemma size_value directory :
  get_directory_size directory true
  = if listable directory
    then Ok (entries directory, count (files_below directory),
             total (files_below directory))
    else Raise OSError.
Proof.
  induction directory as [| | |items IH|] using node_induction; trivial.
  rewrite get_directory_size_dir, size_loop_recursive by exact IH.
  rewrite listable_dir, files_below_dir.
  destruct (forallb measurable items); reflexivity.
Qed.

(** X10.  Measured with [recurse], a directory gives the number of its
    entries, the number of regular files anywhere below it and the sum of
    their sizes, whenever everything below that is not a regular file can
    be listed; a path where nothing exists gives three zeros; in every
    other case, a file or a special file met where a directory is
    expected or a directory that cannot be read, the call ends in an
    [OSError]. *)
Theorem get_directory_size_recursive (directory : node) :
  (listable directory = true ->
   get_directory_size directory true
   = Ok (entries directory, count (files_below directory),
         total (files_below directory)))
  /\ (listable directory = false ->
      get_directory_size directory true = Raise OSError)
  /\ get_directory_size Missing true = Ok (0, 0, 0).
Proof.
  rewrite size_value.
  destruct (listable directory); repeat split; trivial; discriminate.
Qed.

Lemma size_loop_flat top items :
  forall files size,
    size_loop top false items files size
    = Ok (top, files + count (direct_files items),
          size + total (direct_files items)).
Proof.
  induction items as [|[name child] items IH]; intros files size.
  - simpl. change (count []) with 0. change (total []) with 0.
    apply sizes_eq; lia.
  - cbn [size_loop direct_files].
    destruct child as [|bytes|bytes|sub|]; fold (size_loop top false);
      rewrite IH; trivial.
    unfold count, total. cbn [List.length fold_right].
    rewrite Nat2Z.inj_succ. apply sizes_eq; lia.
Qed.

Lemma flat_value items :
  get_directory_size (Dir items) false
  = Ok (Z.of_nat (List.length items), count (direct_files items),
        total (direct_files items)).
Proof.
  rewrite get_directory_size_dir, size_loop_flat.
  apply sizes_eq; lia.
Qed.

Lemma direct_files_length items :
  (List.length (direct_files items) <= List.length items)%nat.
Proof.
  induction items as [|[name child] items IH]; simpl; [lia|].
  destruct child; simpl; lia.
Qed.

(** X11.  Measured without [recurse], a directory that can be read
    gives the number of its entries and the number and total size of the
    regular files among them, which are never more than the entries;
    what else it holds, directories that can be read or not, special
    files or links whose target is gone, is counted as an entry and
    otherwise left alone, so that the call cannot fail on what the
    directory holds.  On a directory that cannot be read the call ends
    in an [OSError], as it does on what is no directory. *)
Theorem get_directory_size_flat (items : list (string * node)) :
  get_directory_size (Dir items) false
  = Ok (Z.of_nat (List.length items), count (direct_files items),
        total (direct_files items))
  /\ count (direct_files items) <= Z.of_nat (List.length items)
  /\ get_directory_size Locked false = Raise OSError
  /\ get_directory_size (Dir (items ++ [("closed", Locked)])) false
     = Ok (Z.of_nat (List.length items) + 1, count (direct_files items),
           total (direct_files items))
  /\ get_directory_size (Dir (items ++ [("closed", Locked)])) true
     = Raise OSError.
Proof.
  split; [apply flat_value|]. split; [|split; [reflexivity|split]].
  - unfold count. pose proof (direct_files_length items). lia.
  - rewrite flat_value, length_app, Nat2Z.inj_add.
    assert (Hd : direct_files (items ++ [("closed", Locked)])
                 = direct_files items).
    { clear. induction items as [|[name child] items IH]; trivial.
      cbn [List.app direct_files]. rewrite IH. reflexivity. }
    rewrite Hd. reflexivity.
  - rewrite size_value, listable_dir, forallb_app.
    cbn [forallb measurable snd listable]. now rewrite andb_false_r.
Qed.

Lemma measured directory n f b :
  get_directory_size directory true = Ok (n, f, b) ->
  listable directory = true
  /\ n = entries directory
  /\ f = count (files_below directory)
  /\ b = total (files_below directory).
Proof.
  rewrite size_value. destruct (listable directory); [|discriminate].
  intros E. injection E as <- <- <-. auto.
Qed.

Lemma measurable_size directory :
  listable directory = true ->
  get_directory_size directory true
  = Ok (entries directory, count (files_below directory),
        total (files_below directory)).
Proof. intros Hl. now rewrite size_value, Hl. Qed.

(** X12.  The counts of a listing put together from two listings are the
    sums of the counts of the two: entries, files and bytes add up, with
    and without [recurse]. *)
Theorem get_directory_size_app
    (first second : list (string * node)) (recurse : bool)
    (n1 f1 b1 n2 f2 b2 : Z) :
  get_directory_size (Dir first) recurse = Ok (n1, f1, b1) ->
  get_directory_size (Dir second) recurse = Ok (n2, f2, b2) ->
  get_directory_size (Dir (first ++ second)) recurse
  = Ok (n1 + n2, f1 + f2, b1 + b2).
Proof.
  destruct recurse.
  - intros H1 H2.
    apply measured in H1 as (L1 & -> & -> & ->).
    apply measured in H2 as (L2 & -> & -> & ->).
    rewrite measurable_size.
    + rewrite !files_below_dir, flat_map_app, count_app, total_app.
      cbn [entries]. rewrite length_app, Nat2Z.inj_add. reflexivity.
    + rewrite listable_dir in *. rewrite forallb_app. now rewrite L1, L2.
  - rewrite !flat_value.
    intros H1 H2. injection H1 as <- <- <-. injection H2 as <- <- <-.
    assert (Hd : direct_files (first ++ second)
                 = (direct_files first ++ direct_files second)%list).
    { clear. induction first as [|[name child] first IH]; trivial.
      cbn [List.app direct_files]. rewrite IH. now destruct child. }
    rewrite Hd, count_app, total_app, length_app, Nat2Z.inj_add.
    reflexivity.
Qed.

Lemma get_directory_size_app_witness :
  let first := [("a.bin", File 10); ("sub", Dir [("b.bin", File 5)])] in
  let second := [("gone", Missing); ("c.bin", File 1)] in
  get_directory_size (Dir first) true = Ok (2, 2, 15)
  /\ get_directory_size (Dir second) true = Ok (2, 1, 1)
  /\ get_directory_size (Dir (first ++ second)) true
     = Ok (2 + 2, 2 + 1, 15 + 1).
Proof.
  intros first second. split; [reflexivity|]. split; [reflexivity|].
  apply (get_directory_size_app first second true 2 2 15 2 1 1);
    reflexivity.
Defined.

(* ================================================================== *)
(** ** The handlers that read the installation *)

(** One turn of the loop of [detail_items], by the kind of the entry. *)
Lemma detail_items_cons name child items :
  detail_items ((name, child) :: items)
  = match child with
    | Missing | Locked => Raise OSError
    | File bytes | Special bytes =>
      others <- detail_items items ;; Ok (mkItem "file" name bytes :: others)
    | Dir _ =>
      if listable child
      then others <- detail_items items ;;
           Ok (mkItem "directory" name (total (files_below child)) :: others)
      else Raise OSError
    end.
Proof.
  cbn [detail_items]. destruct child as [|bytes|bytes|sub|]; trivial.
  rewrite size_value. destruct (listable (Dir sub)); reflexivity.
Qed.

Lemma detail_items_raises items e :
  detail_items items = Raise e -> e = OSError.
Proof.
  induction items as [|[name child] items IH]; [discriminate|].
  rewrite detail_items_cons.
  destruct child as [|bytes|bytes|sub|]; try destruct (listable (Dir sub));
    try congruence.
  all: destruct (detail_items items); simpl; [discriminate|].
  all: intros E; injection E as <-; now apply IH.
Qed.

Lemma detail_items_measured items :
  forall details,
    forallb measurable items = true ->
    detail_items items = Ok details ->
    List.length details = List.length items
    /\ total (map item_bytes details)
       = total (flat_map (fun entry => files_below (snd entry)) items).
Proof.
  induction items as [|[name child] items IH]; intros details Hm.
  - simpl. intros E. injection E as <-. auto.
  - cbn [forallb] in Hm. apply andb_true_iff in Hm as [Hc Hm].
    unfold measurable in Hc. cbn [snd] in Hc.
    rewrite detail_items_cons. cbn [flat_map snd]. rewrite total_app.
    destruct child as [|bytes|bytes|sub|];
      [discriminate | | discriminate Hc | | discriminate Hc].
    + destruct (detail_items items) as [others|]; simpl; [|discriminate].
      intros E. injection E as <-.
      destruct (IH others Hm eq_refl) as [Hlen Htot].
      cbn [List.length map files_below].
      change (total (_ :: map item_bytes others))
        with (bytes + total (map item_bytes others)).
      change (total [bytes]) with (bytes + 0).
      split; [now rewrite Hlen | lia].
    + rewrite Hc.
      destruct (detail_items items) as [others|]; cbn [bind]; [|discriminate].
      intros E. injection E as <-.
      destruct (IH others Hm eq_refl) as [Hlen Htot].
      cbn [List.length map].
      change (total (_ :: map item_bytes others))
        with (total (files_below (Dir sub)) + total (map item_bytes others)).
      split; [now rewrite Hlen | lia].
Qed.

Section Readers.
Variable join : string -> string -> string.
Variable engine_root : string.

Local Abbreviation directory_of := (engine_directory join engine_root).
Local Abbreviation details_of := (get_installation_details join engine_root).
Local Abbreviation summary_of := (get_installation_summary join engine_root).

Lemma summarize_value configuration tree dirnames :
  summarize join engine_root configuration tree dirnames
  = if forallb (fun dirname =>
                  listable (tree (directory_of configuration dirname)))
               dirnames
    then Ok (map (fun dirname =>
                    let directory := directory_of configuration dirname in
                    (dirname,
                     mkSizeInfo (entries (tree directory))
                                (count (files_below (tree directory)))
                                (total (files_below (tree directory)))
                                directory))
                 dirnames)
    else Raise OSError.
Proof.
  induction dirnames as [|dirname dirnames IH]; trivial.
  cbn [summarize forallb map]. rewrite size_value.
  destruct (listable (tree (directory_of configuration dirname)));
    [|reflexivity].
  cbn [bind andb]. rewrite IH.
  destruct (forallb _ dirnames); reflexivity.
Qed.
End Readers.

(** X13.  The summary and the details of a directory agree: when both are
    returned, the details have one item for each entry that the summary
    counts, and their bytes add up to the bytes of the summary. *)
Theorem details_match_size
    (join : string -> string -> string) (engine_root : string)
    (configuration : Configuration) (tree : FileTree) (dirname : string)
    (details : list DetailItem) (items files size : Z) :
  get_installation_details join engine_root configuration tree dirname
  = Ok details ->
  get_directory_size
    (tree (engine_directory join engine_root configuration dirname)) true
  = Ok (items, files, size) ->
  Z.of_nat (List.length details) = items
  /\ total (map item_bytes details) = size.
Proof.
  unfold get_installation_details.
  destruct (tree _) as [|bytes|bytes|listing|]; try discriminate.
  - intros E1 E2. injection E1 as <-. injection E2 as <- <- <-. auto.
  - intros Hd Hs. apply measured in Hs as (Hl & -> & _ & ->).
    rewrite listable_dir in Hl. rewrite files_below_dir.
    destruct (detail_items_measured listing details Hl Hd) as [Hlen Htot].
    cbn [entries]. now rewrite Hlen, Htot.
Qed.

Lemma details_match_size_witness :
  let tree := fun path : string =>
    if String.eqb path "/engine/lora"
    then Dir [("a.safetensors", File 10);
              ("sub", Dir [("b.bin", File 5); ("c.bin", File 7)])]
    else Missing in
  let join := fun a b : string => a ++ "/" ++ b in
  let configuration := fun _ : string => @None string in
  get_installation_details join "/engine" configuration tree "lora"
  = Ok [mkItem "file" "a.safetensors" 10; mkItem "directory" "sub" 12]
  /\ get_directory_size
       (tree (engine_directory join "/engine" configuration "lora")) true
     = Ok (2, 3, 22)
  /\ Z.of_nat (List.length [mkItem "file" "a.safetensors" 10;
                            mkItem "directory" "sub" 12]) = 2
  /\ total (map item_bytes [mkItem "file" "a.safetensors" 10;
                            mkItem "directory" "sub" 12]) = 22.
Proof.
  intros tree join configuration.
  split; [reflexivity|]. split; [reflexivity|].
  apply (details_match_size join "/engine" configuration tree "lora"
           [mkItem "file" "a.safetensors" 10; mkItem "directory" "sub" 12]
           2 3 22); reflexivity.
Defined.

(** X14.  A link whose target is gone counts as an entry of its directory
    and adds no file and no byte to its size, with and without
    [recurse]; the details of that directory cannot be given, the call
    ends in an [OSError]. *)
Theorem dangling_link
    (before after : list (string * node)) (name : string) (recurse : bool) :
  get_directory_size (Dir (before ++ (name, Missing) :: after)) recurse
  = match get_directory_size (Dir (before ++ after)) recurse with
    | Ok (items, files, size) => Ok (items + 1, files, size)
    | Raise e => Raise e
    end
  /\ detail_items (before ++ (name, Missing) :: after) = Raise OSError.
Proof.
  split.
  - destruct recurse.
    + rewrite !size_value, !listable_dir, !files_below_dir, !forallb_app,
        !flat_map_app.
      cbn [forallb measurable snd listable flat_map files_below List.app
           andb entries].
      destruct (forallb measurable before && forallb measurable after)%bool;
        trivial.
      rewrite !length_app. cbn [List.length].
      apply f_equal. f_equal. f_equal. lia.
    + rewrite !flat_value.
      assert (Hd : direct_files (before ++ (name, Missing) :: after)
                   = direct_files (before ++ after)).
      { clear. induction before as [|[n child] before IH]; trivial.
        cbn [List.app direct_files]. rewrite IH. reflexivity. }
      rewrite Hd, !length_app. cbn [List.length].
      apply f_equal. f_equal. f_equal. lia.
  - destruct (detail_items (before ++ (name, Missing) :: after))
      as [details|e] eqn:E.
    + exfalso. revert details E.
      induction before as [|[n child] before IH]; intros details;
        cbn [List.app]; rewrite detail_items_cons; [discriminate|].
      destruct (detail_items (before ++ (name, Missing) :: after))
        as [others|]; [intros _; now apply (IH others) |].
      destruct child as [|bytes|bytes|sub|]; try destruct (listable (Dir sub));
        discriminate.
    + now rewrite (detail_items_raises _ _ E).
Qed.

(** X15.  The summary is returned exactly when each of the eight
    directories, where it is configured or else under the engine root,
    can be measured; it then lists the eight names in their fixed order,
    each with its path, the number of its entries and the number and
    bytes of the files below it, a missing directory with zeros.
    Otherwise the call ends in an [OSError]. *)
Theorem get_installation_summary_value
    (join : string -> string -> string) (engine_root : string)
    (configuration : Configuration) (tree : FileTree) :
  get_installation_summary join engine_root configuration tree
  = if forallb (fun dirname =>
                  listable (tree (engine_directory join engine_root
                                    configuration dirname)))
               DIRNAMES
    then Ok (map (fun dirname =>
                    let directory :=
                      engine_directory join engine_root configuration
                        dirname in
                    (dirname,
                     mkSizeInfo (entries (tree directory))
                                (count (files_below (tree directory)))
                                (total (files_below (tree directory)))
                                directory))
                 DIRNAMES)
    else Raise OSError.
Proof.
  unfold get_installation_summary. apply summarize_value.
Qed.

(* ================================================================== *)
(** ** The handlers that change the installation directories *)

Lemma engine_key_inj a b : engine_key a = engine_key b -> a = b.
Proof. unfold engine_key. simpl. intros H. now injection H. Qed.

Lemma whole_key_same configuration key value :
  assign_whole_key configuration key value key = Some value.
Proof. unfold assign_whole_key. now rewrite String.eqb_refl. Qed.

Lemma whole_key_other configuration key value k :
  k <> key -> assign_whole_key configuration key value k = configuration k.
Proof.
  unfold assign_whole_key. intros H. destruct (String.eqb_spec k key); congruence.
Qed.

(** The store keyed on whole keys is an object of the interface. *)
Lemma whole_keys_laws : SettingsLaws Configuration.
Proof.
  split.
  - intros s dirname value _. apply whole_key_same.
  - intros s dirname other value _ _ Hne. apply whole_key_other.
    intros E. apply engine_key_inj in E. contradiction.
Qed.

Section Changes.
Context {Database Memory : Type}.
Context {database : Settings Database} {memory : Settings Memory}.
Context {database_laws : SettingsLaws Database}.
Context {memory_laws : SettingsLaws Memory}.
Variable is_relative_to_root : string -> bool.
Variable makedirs : FileTree -> string -> FileTree * bool.
Variable create : bool.

Implicit Types (st : State Database Memory).

Local Abbreviation creatable :=
  (fun path => (is_relative_to_root path || create)%bool).
Local Abbreviation each := (change_each is_relative_to_root makedirs create).




Lemma save_directory_saved st dirname path :
  dot_free dirname = true -> saved (save_directory st dirname path) dirname path.
Proof.
  intros Hd. split; cbn [save_directory st_configuration st_user_config];
    now apply lookup_assign.
Qed.

Lemma save_directory_same st dirname path other :
  dot_free dirname = true -> dot_free other = true -> other <> dirname ->
  same_directory (save_directory st dirname path) st other.
Proof.
  intros Hd Ho Hne.
  split; cbn [save_directory st_configuration st_user_config];
    now apply lookup_assign_other.
Qed.






(** Where [os.makedirs] returns on every path of the request, the loop
    comes to its end. *)
Lemma change_each_returns directories :
  (forall tree dirname path,
      In (dirname, path) directories -> snd (makedirs tree path) = true) ->
  forall st not_created,
    exists st' not_created',
      each directories st not_created = (st', Ok not_created').
Proof.
  induction directories as [|[d p] directories IH]; intros Hm st nc;
    [simpl; eauto|].
  assert (Hm' : forall tree dirname path,
             In (dirname, path) directories ->
             snd (makedirs tree path) = true).
  { intros tree dn pa Hin. apply (Hm tree dn pa). now right. }
  cbn [change_each].
  destruct (exists_at (st_tree st) p); [now apply IH|].
  destruct (is_relative_to_root p || create)%bool; [|now apply IH].
  rewrite (Hm (st_tree st) d p (or_introl eq_refl)). now apply IH.
Qed.
End Changes.





(** A request to make a directory below a regular file: [os.makedirs]
    raises, the call ends in its [OSError], and the directory is not
    saved. *)
Example change_installation_directories_below_a_file :
  let under_root := fun path : string => prefix "/engine/" path in
  let makedirs := fun (tree : FileTree) (path : string) =>
    if prefix "/engine/model.bin/" path then (tree, false)
    else (fun p : string => if String.eqb p path then Dir [] else tree p,
          true) in
  let st : State Configuration Configuration :=
    mkState (fun p : string =>
               if String.eqb p "/engine/model.bin" then File 7 else Missing)
            (fun _ => None) (fun _ => None) in
  let result :=
    change_installation_directories under_root makedirs true
      [("lora", "/engine/model.bin/lora")] st in
  snd result = Raise OSError
  /\ lookup (st_configuration (fst result)) (engine_key "lora") = None
  /\ lookup (st_user_config (fst result)) (engine_key "lora") = None.
Proof.
  repeat split.
Qed.

(** X18.  [change_installation_directory], for a name without a dot as
    the path of the request gives it.  It rejects the request, with a
    [BadRequestError], exactly when the path does not exist, is not
    under the engine root and creation is not asked for, and then
    changes nothing.  When the path does not exist and is to be made and
    [os.makedirs] raises, the call ends in that [OSError] and nothing is
    saved: both configurations are as they were.  Otherwise the path is
    saved under the key of the directory in both configurations: it is
    the directory that the summary and the details then look at, and the
    directories of other names without a dot stay where they were. *)
Theorem change_installation_directory_effect
    {Database Memory : Type}
    {database : Settings Database} {memory : Settings Memory}
    (join : string -> string -> string) (engine_root : string)
    (is_relative_to_root : string -> bool)
    (makedirs : FileTree -> string -> FileTree * bool) (create : bool)
    (dirname path : string) (st : State Database Memory) :
  SettingsLaws Database ->
  SettingsLaws Memory ->
  dot_free dirname = true ->
  let result := change_installation_directory is_relative_to_root makedirs
                  create dirname path st in
  let present := exists_at (st_tree st) path in
  let wanted := (is_relative_to_root path || create)%bool in
  let made := makedirs (st_tree st) path in
  (present = false -> wanted = false ->
   result = (st, Raise BadRequestError))
  /\ (snd result = Raise BadRequestError ->
      present = false /\ wanted = false)
  /\ (present = false -> wanted = true -> snd made = false ->
      snd result = Raise OSError
      /\ st_tree (fst result) = fst made
      /\ st_user_config (fst result) = st_user_config st
      /\ st_configuration (fst result) = st_configuration st)
  /\ (snd result = Raise OSError ->
      present = false /\ wanted = true /\ snd made = false)
  /\ (present = true \/ (wanted = true /\ snd made = true) ->
      snd result = Ok tt
      /\ saved (fst result) dirname path
      /\ engine_directory join engine_root
           (lookup (st_configuration (fst result))) dirname = path
      /\ forall other,
           dot_free other = true ->
           other <> dirname ->
           engine_directory join engine_root
             (lookup (st_configuration (fst result))) other
           = engine_directory join engine_root
               (lookup (st_configuration st)) other).
Proof.
  intros database_laws memory_laws Hdot result present wanted made.
  subst result present wanted made.
  assert (Hsaved : forall st0 : State Database Memory,
    saved (save_directory st0 dirname path) dirname path
    /\ engine_directory join engine_root
         (lookup (st_configuration (save_directory st0 dirname path)))
         dirname = path
    /\ forall other,
         dot_free other = true ->
         other <> dirname ->
         engine_directory join engine_root
           (lookup (st_configuration (save_directory st0 dirname path)))
           other
         = engine_directory join engine_root
             (lookup (st_configuration st0)) other).
  { intros st0.
    pose proof (save_directory_saved st0 dirname path Hdot) as Hs.
    split; [exact Hs|]. split.
    - unfold engine_directory. destruct Hs as [-> _]. reflexivity.
    - intros other Ho Hne. unfold engine_directory.
      destruct (save_directory_same st0 dirname path other Hdot Ho Hne)
        as [-> _].
      reflexivity. }
  unfold change_installation_directory.
  destruct (exists_at (st_tree st) path).
  { cbn [fst snd].
    split; [discriminate|]. split; [discriminate|].
    split; [discriminate|]. split; [discriminate|].
    intros _. split; [reflexivity | apply Hsaved]. }
  destruct (is_relative_to_root path || create)%bool.
  2:{ cbn [fst snd].
      split; [reflexivity|]. split; [auto|].
      split; [discriminate|]. split; [discriminate|].
      intros [H|[H _]]; discriminate. }
  destruct (snd (makedirs (st_tree st) path)); cbn [fst snd].
  - split; [discriminate|]. split; [discriminate|].
    split; [discriminate|]. split; [discriminate|].
    intros _. split; [reflexivity|].
    apply (Hsaved (with_tree st (fst (makedirs (st_tree st) path)))).
  - split; [discriminate|]. split; [discriminate|].
    split; [intros _ _ _; repeat split|]. split; [auto|].
    intros [H|[_ H]]; discriminate.
Qed.

Lemma change_installation_directory_effect_witness :
  let under_root := fun path : string => prefix "/engine/" path in
  let makedirs := fun (tree : FileTree) (path : string) =>
    if prefix "/engine/model.bin/" path then (tree, false)
    else (fun p : string => if String.eqb p path then Dir [] else tree p,
          true) in
  let join := fun a b : string => a ++ "/" ++ b in
  let st : State Configuration Configuration :=
    mkState (fun _ => Missing) (fun _ => None) (fun _ => None) in
  let moved :=
    change_installation_directory under_root makedirs true
      "lora" "/models/lora" st in
  let failed :=
    change_installation_directory under_root makedirs false
      "lora" "/engine/model.bin/lora" st in
  let refused :=
    change_installation_directory under_root makedirs false
      "lora" "/models/lora" st in
  dot_free "lora" = true
  /\ refused = (st, Raise BadRequestError)
  /\ (snd failed = Raise OSError
      /\ st_user_config (fst failed) = st_user_config st
      /\ st_configuration (fst failed) = st_configuration st)
  /\ snd moved = Ok tt
  /\ saved (fst moved) "lora" "/models/lora"
  /\ engine_directory join "/engine"
       (lookup (st_configuration (fst moved))) "lora"
     = "/models/lora"
  /\ engine_directory join "/engine"
       (lookup (st_configuration (fst moved))) "cache"
     = "/engine/cache".
Proof.
  intros under_root makedirs join st moved failed refused.
  pose proof (change_installation_directory_effect join "/engine"
                under_root makedirs true "lora" "/models/lora" st
                whole_keys_laws whole_keys_laws eq_refl)
    as (_ & _ & _ & _ & Hmoved).
  pose proof (change_installation_directory_effect join "/engine"
                under_root makedirs false "lora" "/engine/model.bin/lora" st
                whole_keys_laws whole_keys_laws eq_refl)
    as (_ & _ & Hfailed & _ & _).
  pose proof (change_installation_directory_effect join "/engine"
                under_root makedirs false "lora" "/models/lora" st
                whole_keys_laws whole_keys_laws eq_refl)
    as (Hrefused & _).
  split; [reflexivity|].
  split; [apply Hrefused; reflexivity|].
  split.
  { destruct (Hfailed eq_refl eq_refl eq_refl) as (H1 & _ & H2 & H3).
    auto. }
  destruct (Hmoved (or_intror (conj eq_refl eq_refl)))
    as (H1 & H2 & H3 & H4).
  split; [exact H1|]. split; [exact H2|]. split; [exact H3|].
  transitivity (engine_directory join "/engine"
                  (lookup (st_configuration st)) "cache").
  - apply (H4 "cache"); [reflexivity | discriminate].
  - reflexivity.
Defined.

(* ================================================================== *)
(** ** Selecting and ordering *)

Section SortFilter.
Context {A K : Type}.
Variable ltb : K -> K -> bool.
Variable key : A -> K.
Variable keep : A -> bool.

Hypothesis ltb_irrefl : forall x, ltb x x = false.
Hypothesis ltb_trans :
  forall x y z, ltb x y = true -> ltb y z = true -> ltb x z = true.
Hypothesis ltb_total :
  forall x y, ltb x y = false -> ltb y x = false -> x = y.

Lemma insert_by_front x l :
  Forall (asc ltb key x) l -> insert_by ltb key x l = x :: l.
Proof.
  destruct 1 as [|y l Hy _]; trivial.
  simpl. unfold asc in Hy. now rewrite Hy.
Qed.

Lemma insert_by_filter x l :
  StronglySorted (asc ltb key) l ->
  filter keep (insert_by ltb key x l)
  = if keep x then insert_by ltb key x (filter keep l) else filter keep l.
Proof.
  induction 1 as [|y l Hs IH Hy]; simpl.
  - now destruct (keep x).
  - destruct (ltb (key y) (key x)) eqn:Hyx; simpl.
    + rewrite IH. destruct (keep x), (keep y); simpl; trivial.
      now rewrite Hyx.
    + destruct (keep x); trivial.
      symmetry. apply insert_by_front.
      assert (Hall : Forall (asc ltb key x) (y :: l)).
      { constructor; [exact Hyx|].
        rewrite Forall_forall in *. intros z Hz.
        apply (asc_trans ltb key ltb_trans ltb_total) with y;
          [exact Hyx | now apply Hy]. }
      rewrite Forall_forall in *. intros z Hz.
      apply Hall. change (In z (filter keep (y :: l))) in Hz.
      now apply filter_In in Hz.
Qed.

(** Selecting before or after the stable sort comes to the same. *)
Lemma sort_by_filter l :
  filter keep (sort_by ltb key l) = sort_by ltb key (filter keep l).
Proof.
  induction l as [|x l IH]; trivial.
  simpl. rewrite insert_by_filter.
  - rewrite IH. now destruct (keep x).
  - apply sort_by_sorted; assumption.
Qed.
End SortFilter.

Lemma filter_logs_value c logs :
  forall kept, filter_logs c logs = Ok kept -> kept = filter (accepted c) logs.
Proof.
  unfold accepted.
  induction logs as [|log logs IH]; simpl; intros kept H.
  - now injection H as <-.
  - destruct (include_log c log) as [b|]; simpl in H; [|discriminate].
    destruct (filter_logs c logs) as [kept'|]; simpl in H; [|discriminate].
    injection H as <-. rewrite <- (IH kept' eq_refl). now destruct b.
Qed.

(** X19.  Criteria strike entries out, they never reorder: the result
    of a query is the result of the query without criteria, the whole
    assembly newest first, from which the entries that [include_log]
    does not accept are removed. *)
Theorem query_logs_strikes_out (c : Criteria) (logs result : list LogDict) :
  query_logs c logs = Ok result ->
  exists everything,
    query_logs no_criteria logs = Ok everything
    /\ result = filter (accepted c) everything.
Proof.
  intros H. apply query_logs_inv in H as (kept & Hk & ->).
  exists (rev (sort_logs logs)). split.
  - unfold query_logs. rewrite filter_logs_accepted; [reflexivity|].
    apply Forall_forall. reflexivity.
  - rewrite (filter_logs_value _ _ _ Hk), filter_rev. f_equal.
    unfold sort_logs. symmetry. apply sort_by_filter.
    + apply dt_ltb_irrefl.
    + apply dt_ltb_trans.
    + apply dt_ltb_total.
Qed.

Lemma query_logs_strikes_out_witness :
  let c := mkCriteria PyNone ["INFO"] [] None in
  let log us lv := mkLog (mkDateTime 2023 10 1 12 0 0 us) "foo.bar" lv
                         "mod.py" (PyStr "10") "hello" in
  let logs := [log 2 "INFO"; log 1 "DEBUG"; log 2 "DEBUG"; log 1 "INFO"] in
  query_logs c logs = Ok [log 2 "INFO"; log 1 "INFO"]
  /\ exists everything,
       query_logs no_criteria logs = Ok everything
       /\ [log 2 "INFO"; log 1 "INFO"] = filter (accepted c) everything.
Proof.
  intros c log logs. split; [reflexivity|].
  apply (query_logs_strikes_out c logs). reflexivity.
Defined.

(** X20.  Applied to its own output the query goes back and forth
    between two orders: the third result is the first one again, the ties
    of equal timestamps being reversed twice. *)
Theorem query_logs_thrice (c : Criteria) (logs first : list LogDict) :
  query_logs c logs = Ok first ->
  exists second,
    query_logs c first = Ok second /\ query_logs c second = Ok first.
Proof.
  intros H. apply query_logs_inv in H as (kept & Hk & ->).
  pose proof (filter_logs_kept _ _ _ Hk) as Hall.
  assert (Hsame : forall l, Permutation kept l ->
                            filter_logs c l = Ok l).
  { intros l Hp. apply filter_logs_accepted.
    rewrite Forall_forall in *. intros log Hin. apply Hall.
    now apply (Permutation_in _ (Permutation_sym Hp)). }
  assert (P1 : Permutation kept (rev (sort_logs kept))).
  { eapply Permutation_trans; [apply sort_logs_perm | apply Permutation_rev]. }
  set (first := rev (sort_logs kept)) in *.
  assert (P2 : Permutation kept (rev (sort_logs first))).
  { eapply Permutation_trans; [exact P1|].
    eapply Permutation_trans; [apply sort_logs_perm | apply Permutation_rev]. }
  exists (rev (sort_logs first)). unfold query_logs.
  rewrite (Hsame first P1), (Hsame _ P2). cbn [bind].
  split; [reflexivity|]. f_equal.
  apply (desc_unique dt_ltb dt_eqb timestamp).
  - apply dt_ltb_irrefl.
  - apply dt_ltb_total.
  - apply dt_eqb_eq.
  - apply sort_logs_rev_sorted.
  - apply sort_logs_rev_sorted.
  - intros t. fold (with_timestamp t).
    rewrite !sort_logs_rev_groups. apply rev_involutive.
Qed.

Lemma query_logs_thrice_witness :
  let log text := mkLog (mkDateTime 2023 10 1 12 0 0 0) "foo.bar" "INFO"
                        "mod.py" (PyStr "10") text in
  query_logs no_criteria [log "a"; log "b"] = Ok [log "b"; log "a"]
  /\ exists second,
       query_logs no_criteria [log "b"; log "a"] = Ok second
       /\ query_logs no_criteria second = Ok [log "b"; log "a"].
Proof.
  intros log. split; [reflexivity|].
  apply (query_logs_thrice no_criteria [log "a"; log "b"]). reflexivity.
Defined.
